(** * Sliding-window rate limiter of [lib/rate-limit.ts]

    A shallow embedding of [rateLimit], [getRateLimitIdentifier] and
    [validateContentType], together with the bounded, time-expiring cache
    the limiter stores its windows in, and of the route handlers of
    [app/api/test-records] that consult the limiter.

    Conventions.
    - JavaScript numbers that hold millisecond clocks, limits and lengths
      are integers of [Z].
    - [Date.now()] is an explicit argument [currentTime] of [check]; the
      cache reads the same clock.
    - [check] is an [async] function without any [await]: its body runs to
      completion when it is called, so one call is one state transition
      [Store -> CheckResult * Store]. *)

From Stdlib Require Import ZArith Lia Sorted.
From stdpp Require Import base option list strings pretty gmap.

Local Open Scope Z_scope.

(** ** The cache behind [tokenCache]

    [tokenCache] is an instance of the [LRUCache] class of the [lru-cache]
    package.  The package is imported, not part of the sources; the module
    below follows the description of the store: a bounded map from caller
    key to window, kept in recency order, each entry stamped with the time
    of its last write. *)

Module LRUCache.

(** One cached window: the caller key, its recorded timestamps and the
    clock value of the last [set] on it. *)
Record Slot := mkSlot {
  s_key : string;
  s_value : list Z;
  s_written : Z
}.

(** Slots in recency order, the most recently used first. *)
Abbreviation Store := (list Slot).

(** Construction options: [max] and [ttl]. *)
Record Options := mkOptions {
  maxKeys : nat;
  ttl : Z
}.

Fixpoint find_slot (k : string) (s : Store) : option Slot :=
  match s with
  | [] => None
  | e :: s' => if String.eqb (s_key e) k then Some e else find_slot k s'
  end.

Fixpoint remove_key (k : string) (s : Store) : Store :=
  match s with
  | [] => []
  | e :: s' =>
      if String.eqb (s_key e) k then remove_key k s' else e :: remove_key k s'
  end.

Definition keys (s : Store) : list string := map s_key s.

(** Modelled from the spec: the expiry test of the imported [LRUCache]
    class.  An entry is expired once more than [ttl] milliseconds have
    passed since its last write. *)
Definition is_stale (o : Options) (now : Z) (e : Slot) : bool :=
  ttl o <? now - s_written e.

(** Modelled from the spec: the eviction of the imported [LRUCache] class.
    The least recently used slot is the last one. *)
Definition evict_lru (s : Store) : Store := removelast s.

(** Modelled from the spec: [get] of the imported [LRUCache] class.  A
    missing or expired key is absent (the expired slot is dropped on this
    access); a hit returns the window and makes the key the most recently
    used, without restarting its time-to-live. *)
Definition get (o : Options) (now : Z) (k : string) (s : Store)
  : option (list Z) * Store :=
  match find_slot k s with
  | None => (None, s)
  | Some e =>
      if is_stale o now e then (None, remove_key k s)
      else (Some (s_value e), e :: remove_key k s)
  end.

(** Modelled from the spec: [set] of the imported [LRUCache] class.  It
    replaces or inserts the window, restarts its time-to-live and makes
    the key the most recently used; a new key arriving at capacity evicts
    the least recently used slot first. *)
Definition set (o : Options) (now : Z) (k : string) (v : list Z) (s : Store)
  : Store :=
  let e := mkSlot k v now in
  match find_slot k s with
  | Some _ => e :: remove_key k s
  | None =>
      if (maxKeys o <=? length s)%nat then e :: evict_lru s else e :: s
  end.

(** What a lookup at time [now] would see for [k], without touching the
    store: the window and its write time, unless expired. *)
Definition live (o : Options) (now : Z) (k : string) (s : Store)
  : option (list Z * Z) :=
  match find_slot k s with
  | Some e => if is_stale o now e then None else Some (s_value e, s_written e)
  | None => None
  end.

(** Cache operations, to speak about every reachable store. *)
Inductive Op :=
| OpGet (now : Z) (k : string)
| OpSet (now : Z) (k : string) (v : list Z).

Definition step (o : Options) (s : Store) (op : Op) : Store :=
  match op with
  | OpGet now k => snd (get o now k s)
  | OpSet now k v => set o now k v s
  end.

Definition run_ops (o : Options) (ops : list Op) (s : Store) : Store :=
  fold_left (step o) ops s.

End LRUCache.

Import LRUCache.

(** ** [rateLimit] *)

Record RateLimitOptions := mkRateLimitOptions {
  interval : Z;
  uniqueTokenPerInterval : nat
}.

Record CheckResult := mkCheckResult {
  success : bool;
  remaining : Z
}.

(** [new LRUCache({ max: options.uniqueTokenPerInterval, ttl: options.interval })] *)
Definition tokenCache_options (options : RateLimitOptions) : LRUCache.Options :=
  {| maxKeys := uniqueTokenPerInterval options; ttl := interval options |}.

(** [tokenCache.get(token) || [0]]: only a miss is falsy, an array never is. *)
Definition tokenCount (options : RateLimitOptions) (currentTime : Z)
    (token : string) (tokenCache : Store) : list Z :=
  default [0] (fst (LRUCache.get (tokenCache_options options) currentTime token tokenCache)).

(** [tokenCount.filter(timestamp => currentTime - timestamp < options.interval)] *)
Definition validTimestamps (options : RateLimitOptions) (currentTime : Z)
    (token : string) (tokenCache : Store) : list Z :=
  List.filter (fun timestamp => currentTime - timestamp <? interval options)
    (tokenCount options currentTime token tokenCache).

(** [check(limit, token)], run at clock value [currentTime]. *)
Definition check (options : RateLimitOptions) (currentTime : Z) (limit : Z)
    (token : string) (tokenCache : Store) : CheckResult * Store :=
  let cache1 := snd (LRUCache.get (tokenCache_options options) currentTime token tokenCache) in
  let valid := validTimestamps options currentTime token tokenCache in
  if limit <=? Z.of_nat (length valid) then
    ({| success := false; remaining := 0 |}, cache1)
  else
    let pushed := valid ++ [currentTime] in
    ({| success := true; remaining := limit - Z.of_nat (length pushed) |},
     LRUCache.set (tokenCache_options options) currentTime token pushed cache1).

(** [apiLimiter] *)
Definition apiLimiter_options : RateLimitOptions :=
  {| interval := 60 * 1000; uniqueTokenPerInterval := 500 |}.

(** A call of [check] as it reaches the limiter. *)
Record Call := mkCall {
  c_time : Z;
  c_limit : Z;
  c_token : string
}.

(** Calls served one after the other, threading the cache. *)
Fixpoint run (options : RateLimitOptions) (calls : list Call) (tokenCache : Store)
  : list CheckResult * Store :=
  match calls with
  | [] => ([], tokenCache)
  | c :: calls' =>
      let '(r, cache1) := check options (c_time c) (c_limit c) (c_token c) tokenCache in
      let '(rs, cache2) := run options calls' cache1 in
      (r :: rs, cache2)
  end.

(** Calls of one caller with one limit at the given clock values. *)
Definition burst (limit : Z) (token : string) (times : list Z) : list Call :=
  map (fun t => mkCall t limit token) times.

(** ** Request helpers *)

(** The part of [NextRequest] the helpers read: its headers, by lower-case
    name.  [req.headers.get(name)] is the lookup; a header sent with an
    empty value is present and maps to the empty string. *)
Record NextRequest := mkRequest {
  headers : gmap string string
}.

Definition headers_get (req : NextRequest) (name : string) : option string :=
  headers req !! name.

(** JavaScript truthiness of a [string | null | undefined]: [null],
    [undefined] and the empty string are falsy. *)
Definition truthy (x : option string) : bool :=
  match x with
  | Some s => negb (String.eqb s "")
  | None => false
  end.

(** [a || b] on two nullable strings. *)
Definition js_or (a b : option string) : option string :=
  if truthy a then a else b.

(** [a || 'literal']. *)
Definition js_or_lit (a : option string) (b : string) : string :=
  match a with
  | Some s => if String.eqb s "" then b else s
  | None => b
  end.

(** [getRateLimitIdentifier(req, userId?)] *)
Definition getRateLimitIdentifier (req : NextRequest) (userId : option string)
  : string :=
  let ip :=
    js_or_lit
      (js_or (headers_get req "x-forwarded-for") (headers_get req "x-real-ip"))
      "unknown" in
  match userId with
  | Some u => if String.eqb u "" then "ip:" +:+ ip else "user:" +:+ u
  | None => "ip:" +:+ ip
  end.

(** Lower-casing of the ASCII letters, the instance used on concrete
    requests. *)
Definition ascii_toLowerCase (c : Ascii.ascii) : Ascii.ascii :=
  let n := Ascii.nat_of_ascii c in
  if ((65 <=? n) && (n <=? 90))%nat then Ascii.ascii_of_nat (n + 32) else c.

Fixpoint toLowerCase_ascii (s : string) : string :=
  match s with
  | EmptyString => EmptyString
  | String c s' => String (ascii_toLowerCase c) (toLowerCase_ascii s')
  end.

Section ContentType.

(** [String.prototype.toLowerCase], kept abstract: the results below hold
    for whatever case mapping the engine applies. *)
Variable toLowerCase : string -> string.

(** [value.startsWith(searchString)] *)
Definition startsWith (value searchString : string) : bool :=
  String.prefix searchString value.

(** [validateContentType(req, expectedType)] *)
Definition validateContentType (req : NextRequest) (expectedType : string)
  : bool :=
  let contentType := headers_get req "content-type" in
  if negb (truthy contentType) then false
  else
    match contentType with
    | Some ct => startsWith (toLowerCase ct) (toLowerCase expectedType)
    | None => false
    end.

(** The default of the second parameter. *)
Definition validateContentType_default (req : NextRequest) : bool :=
  validateContentType req "application/json".

(** "Compared case-insensitively, [value] starts with [expected]". *)
Definition starts_with_ci (value expected : string) : Prop :=
  exists rest, toLowerCase value = toLowerCase expected +:+ rest.

End ContentType.

(** ** The key derivation in the words of its description *)

(** As first described: a header counts as soon as it is present. *)
Definition identify_if_present (req : NextRequest) (userId : option string)
  : string :=
  match userId with
  | Some u =>
      if decide (u <> "") then "user:" +:+ u
      else
        match headers_get req "x-forwarded-for", headers_get req "x-real-ip" with
        | Some v, _ => "ip:" +:+ v
        | None, Some v => "ip:" +:+ v
        | None, None => "ip:unknown"
        end
  | None =>
      match headers_get req "x-forwarded-for", headers_get req "x-real-ip" with
      | Some v, _ => "ip:" +:+ v
      | None, Some v => "ip:" +:+ v
      | None, None => "ip:unknown"
      end
  end.

(** A value that is present and not the empty string. *)
Definition non_empty (x : option string) : option string :=
  match x with
  | Some s => if decide (s = "") then None else Some s
  | None => None
  end.

(** As amended: a header counts when it is present and non-empty, exactly
    like the user identifier. *)
Definition identify_if_non_empty (req : NextRequest) (userId : option string)
  : string :=
  match non_empty userId with
  | Some u => "user:" +:+ u
  | None =>
      match non_empty (headers_get req "x-forwarded-for"),
            non_empty (headers_get req "x-real-ip") with
      | Some v, _ => "ip:" +:+ v
      | None, Some v => "ip:" +:+ v
      | None, None => "ip:unknown"
      end
  end.

(** ** Vocabulary of the statements *)

(** The verdicts of [n] admitted calls in a row when [quota] calls are
    still free: [remaining] counts down from [quota - 1]. *)
Fixpoint countdown (quota : Z) (n : nat) : list CheckResult :=
  match n with
  | O => []
  | S n' => mkCheckResult true (quota - 1) :: countdown (quota - 1) n'
  end.

(** The clock never runs backwards over a history that starts at or
    after [since]. *)
Fixpoint chronological (since : Z) (calls : list Call) : bool :=
  match calls with
  | [] => true
  | c :: calls' => (since <=? c_time c) && chronological (c_time c) calls'
  end.


(** [timestamp] is inside the window that ends at [currentTime]. *)
Definition in_window (options : RateLimitOptions) (currentTime timestamp : Z)
  : Prop :=
  currentTime - timestamp < interval options.

(** Every store the cache can be in: what some sequence of [get] and
    [set] calls makes of the empty cache. *)
Definition reachable (o : LRUCache.Options) (s : Store) : Prop :=
  exists ops, s = run_ops o ops [].

(** ** Vocabulary of the statements about histories *)

(** The clock values at which the calls of [token] in a history were
    admitted, oldest first. *)
Fixpoint admitted (options : RateLimitOptions) (token : string)
    (calls : list Call) (tokenCache : Store) : list Z :=
  match calls with
  | [] => []
  | c :: calls' =>
      let '(r, cache1) := check options (c_time c) (c_limit c) (c_token c) tokenCache in
      if success r && String.eqb (c_token c) token
      then c_time c :: admitted options token calls' cache1
      else admitted options token calls' cache1
  end.

(** The callers that appear in a history, each once. *)
Definition callers (calls : list Call) : list string :=
  remove_dups (map c_token calls).

(** How many timestamps the cache holds in all. *)
Definition stored_timestamps (tokenCache : Store) : nat :=
  length (concat (map s_value tokenCache)).

(** A window as [check] writes it: in clock order, ending with the time
    of the write and reaching back less than [interval] from it. *)
Definition well_shaped (options : RateLimitOptions) (e : Slot) : Prop :=
  StronglySorted Z.le (s_value e) /\
  last (s_value e) = Some (s_written e) /\
  Forall (fun ts => 0 <= ts <= s_written e /\ s_written e - ts < interval options)
         (s_value e).

(** ** The route handlers that consult the limiter

    [GET] and [POST] of [app/api/test-records/route.ts] and [GET], [PUT]
    and [DELETE] of the route of one record.  What the handlers await
    from outside is an argument: what [auth()] settles to, what
    [req.json()] settles to, the [id] of [params], and a database that
    answers each [prisma.recordTest] call.  The result says what the
    handler returns: a response, or the error its [catch] hands to
    [handleApiError]. *)

(** A promise once settled. *)
Inductive Settled (A : Type) :=
| Rejected
| Resolved (a : A).
Arguments Rejected {A}.
Arguments Resolved {A} a.

(** What can reach the [catch] of a handler. *)
Inductive Thrown :=
| ApiError (status : Z) (message : string)
| AuthRejected
| JsonRejected
| TypeError
| DatabaseRejected.

Section Handlers.

(** JSON numbers as the engine holds them; [number_truthy] is false for
    zero only. *)
Context {number : Type}.
Variable number_truthy : number -> bool.

(** A row of [recordTest] as the database returns it. *)
Context {RecordTest : Type}.

Variable toLowerCase : string -> string.

(** A value parsed from a JSON body; an object lists its own properties. *)
#[warnings="-register-all"]
Inductive JsonValue :=
| JNull
| JBool (b : bool)
| JNumber (n : number)
| JString (s : string)
| JArray (items : list JsonValue)
| JObject (fields : list (string * JsonValue)).

(** [value.name] for the names the handlers destructure; [None] is
    [undefined]. *)
Definition property (name : string) (value : JsonValue) : option JsonValue :=
  match value with
  | JObject fields =>
      match List.find (fun kv => String.eqb (fst kv) name) fields with
      | Some kv => Some (snd kv)
      | None => None
      end
  | _ => None
  end.

(** Truthiness of a possibly undefined JSON value. *)
Definition json_truthy (v : option JsonValue) : bool :=
  match v with
  | None => false
  | Some JNull => false
  | Some (JBool b) => b
  | Some (JNumber n) => number_truthy n
  | Some (JString s) => negb (String.eqb s "")
  | Some (JArray _) => true
  | Some (JObject _) => true
  end.

(** [data] of [prisma.recordTest.create]. *)
Record CreateData := mkCreateData {
  cd_title : string;
  cd_description : JsonValue;
  cd_status : JsonValue;
  cd_userId : string
}.

(** [data] of [prisma.recordTest.update]: a property is present or not. *)
Record UpdateData := mkUpdateData {
  ud_title : option JsonValue;
  ud_description : option JsonValue;
  ud_status : option JsonValue
}.

(** The calls on [prisma.recordTest]. *)
Inductive DbCall :=
| FindMany (userId : string)
| Create (data : CreateData)
| FindFirst (id userId : string)
| Update (id : string) (data : UpdateData)
| Delete (id : string).

(** The database: what each call settles to. *)
Record Prisma := mkPrisma {
  findMany : string -> Settled (list RecordTest);
  create : CreateData -> Settled RecordTest;
  findFirst : string -> string -> Settled (option RecordTest);
  update : string -> UpdateData -> Settled RecordTest;
  delete : string -> Settled RecordTest
}.

Inductive ResponseBody :=
| BodyRecords (records : list RecordTest)
| BodyRecord (record : RecordTest)
| BodyMessage (message : string).

(** [NextResponse.json(body, { status })] with the header
    [X-RateLimit-Remaining] set. *)
Record Response := mkResponse {
  r_status : Z;
  r_body : ResponseBody;
  r_remaining : string
}.

Inductive HandlerResult :=
| Caught (error : Thrown)
| Returned (response : Response).

(** What a handler can change: the cache of [apiLimiter] and the
    database, seen as the calls made on it, oldest first. *)
Record World := mkWorld {
  w_cache : Store;
  w_queries : list DbCall
}.

Definition Action (A : Type) : Type := World -> (Thrown + A) * World.

Definition ret {A : Type} (a : A) : Action A := fun w => (inr a, w).

Definition throw {A : Type} (e : Thrown) : Action A := fun w => (inl e, w).

Definition bind {A B : Type} (m : Action A) (k : A -> Action B) : Action B :=
  fun w =>
    match m w with
    | (inl e, w') => (inl e, w')
    | (inr a, w') => k a w'
    end.

Notation "x <- m ;; k" := (bind m (fun x => k))
  (at level 100, m at next level, right associativity).

(** [await promise]: a rejection is thrown. *)
Definition await {A : Type} (promise : Settled A) (rejection : Thrown) : Action A :=
  match promise with
  | Rejected => throw rejection
  | Resolved a => ret a
  end.

(** [if (!userId) throw new ApiError(401, 'Unauthorized')]; past it
    [userId] is a non-empty string. *)
Definition signed_in (userId : option string) : Action string :=
  match userId with
  | Some u =>
      if String.eqb u "" then throw (ApiError 401 "Unauthorized") else ret u
  | None => throw (ApiError 401 "Unauthorized")
  end.

(** [await apiLimiter.check(limit, identifier)] at clock value [now]. *)
Definition apiLimiter_check (now limit : Z) (identifier : string)
  : Action CheckResult :=
  fun w =>
    let '(r, cache1) := check apiLimiter_options now limit identifier (w_cache w) in
    (inr r, mkWorld cache1 (w_queries w)).

(** [await prisma.recordTest...]: the call reaches the database, then
    settles. *)
Definition query {A : Type} (call : DbCall) (result : Settled A) : Action A :=
  fun w =>
    let w' := mkWorld (w_cache w) (w_queries w ++ [call]) in
    match result with
    | Rejected => (inl DatabaseRejected, w')
    | Resolved a => (inr a, w')
    end.

(** [const { title, description, status } = body]: [null] cannot be
    destructured. *)
Definition destructure (body : JsonValue)
  : Action (option JsonValue * option JsonValue * option JsonValue) :=
  match body with
  | JNull => throw TypeError
  | _ => ret (property "title" body, property "description" body,
              property "status" body)
  end.

(** [response.headers.set('X-RateLimit-Remaining', remaining.toString())] *)
Definition respond (status : Z) (body : ResponseBody) (remaining : Z) : Response :=
  mkResponse status body (pretty remaining).

(** [try { ... } catch (error) { return handleApiError(error) }] *)
Definition try_catch (body : Action Response) (w : World) : HandlerResult * World :=
  match body w with
  | (inl e, w') => (Caught e, w')
  | (inr response, w') => (Returned response, w')
  end.

Definition rate_limit_exceeded : Thrown :=
  ApiError 429 "Rate limit exceeded. Please try again later.".

(** [GET] of the collection: list the records of the caller. *)
Definition GET_records (db : Prisma) (session : Settled (option string))
    (req : NextRequest) (now : Z) : World -> HandlerResult * World :=
  try_catch (
    userId <- await session AuthRejected ;;
    u <- signed_in userId ;;
    let identifier := getRateLimitIdentifier req (Some u) in
    r <- apiLimiter_check now 20 identifier ;;
    if negb (success r) then throw rate_limit_exceeded else
    records <- query (FindMany u) (findMany db u) ;;
    ret (respond 200 (BodyRecords records) (remaining r))).

(** [POST] of the collection: create a record. *)
Definition POST_records (db : Prisma) (session : Settled (option string))
    (req : NextRequest) (json : Settled JsonValue) (now : Z)
  : World -> HandlerResult * World :=
  try_catch (
    userId <- await session AuthRejected ;;
    u <- signed_in userId ;;
    if negb (validateContentType toLowerCase req "application/json")
    then throw (ApiError 415 "Content-Type must be application/json") else
    let identifier := getRateLimitIdentifier req (Some u) in
    r <- apiLimiter_check now 20 identifier ;;
    if negb (success r) then throw rate_limit_exceeded else
    body <- await json JsonRejected ;;
    fields <- destructure body ;;
    let '(title, description, status) := fields in
    match title with
    | Some (JString t) =>
        if String.eqb t ""
        then throw (ApiError 400 "Title is required and must be a string")
        else
          let data :=
            mkCreateData t
              (if json_truthy description then default JNull description else JNull)
              (if json_truthy status then default JNull status else JString "active")
              u in
          record <- query (Create data) (create db data) ;;
          ret (respond 201 (BodyRecord record) (remaining r))
    | _ => throw (ApiError 400 "Title is required and must be a string")
    end).

(** [GET] of one record. *)
Definition GET_record (db : Prisma) (session : Settled (option string))
    (req : NextRequest) (id : string) (now : Z) : World -> HandlerResult * World :=
  try_catch (
    userId <- await session AuthRejected ;;
    u <- signed_in userId ;;
    let identifier := getRateLimitIdentifier req (Some u) in
    r <- apiLimiter_check now 20 identifier ;;
    if negb (success r) then throw rate_limit_exceeded else
    record <- query (FindFirst id u) (findFirst db id u) ;;
    match record with
    | None => throw (ApiError 404 "Record not found")
    | Some found => ret (respond 200 (BodyRecord found) (remaining r))
    end).

(** [PUT] of one record: update the fields that were sent. *)
Definition PUT_record (db : Prisma) (session : Settled (option string))
    (req : NextRequest) (id : string) (json : Settled JsonValue) (now : Z)
  : World -> HandlerResult * World :=
  try_catch (
    userId <- await session AuthRejected ;;
    u <- signed_in userId ;;
    if negb (validateContentType toLowerCase req "application/json")
    then throw (ApiError 415 "Content-Type must be application/json") else
    let identifier := getRateLimitIdentifier req (Some u) in
    r <- apiLimiter_check now 20 identifier ;;
    if negb (success r) then throw rate_limit_exceeded else
    body <- await json JsonRejected ;;
    fields <- destructure body ;;
    let '(title, description, status) := fields in
    existingRecord <- query (FindFirst id u) (findFirst db id u) ;;
    match existingRecord with
    | None => throw (ApiError 404 "Record not found or access denied")
    | Some _ =>
        let data :=
          mkUpdateData
            (if json_truthy title then title else None)
            description
            (if json_truthy status then status else None) in
        record <- query (Update id data) (update db id data) ;;
        ret (respond 200 (BodyRecord record) (remaining r))
    end).

(** [DELETE] of one record. *)
Definition DELETE_record (db : Prisma) (session : Settled (option string))
    (req : NextRequest) (id : string) (now : Z) : World -> HandlerResult * World :=
  try_catch (
    userId <- await session AuthRejected ;;
    u <- signed_in userId ;;
    let identifier := getRateLimitIdentifier req (Some u) in
    r <- apiLimiter_check now 20 identifier ;;
    if negb (success r) then throw rate_limit_exceeded else
    existingRecord <- query (FindFirst id u) (findFirst db id u) ;;
    match existingRecord with
    | None => throw (ApiError 404 "Record not found or access denied")
    | Some _ =>
        _ <- query (Delete id) (delete db id) ;;
        ret (respond 200 (BodyMessage "Record deleted successfully") (remaining r))
    end).

(** The five routes and what each request carries. *)
Inductive ApiRequest :=
| ListRecords
| CreateRecord (json : Settled JsonValue)
| ShowRecord (id : string)
| UpdateRecord (id : string) (json : Settled JsonValue)
| DeleteRecord (id : string).

(** The handler the router picks for a request. *)
Definition serve (db : Prisma) (session : Settled (option string))
    (req : NextRequest) (call : ApiRequest) (now : Z)
  : World -> HandlerResult * World :=
  match call with
  | ListRecords => GET_records db session req now
  | CreateRecord json => POST_records db session req json now
  | ShowRecord id => GET_record db session req id now
  | UpdateRecord id json => PUT_record db session req id json now
  | DeleteRecord id => DELETE_record db session req id now
  end.

(** Requests of one session served one after the other. *)
Fixpoint serve_all (db : Prisma) (session : Settled (option string))
    (requests : list (NextRequest * ApiRequest * Z)) (w : World)
  : list HandlerResult * World :=
  match requests with
  | [] => ([], w)
  | (req, call, now) :: requests' =>
      let '(result, w1) := serve db session req call now w in
      let '(results, w2) := serve_all db session requests' w1 in
      (result :: results, w2)
  end.

(** The routes that read a body insist on its content type. *)
Definition content_type_ok (req : NextRequest) (call : ApiRequest) : bool :=
  match call with
  | CreateRecord _ => validateContentType toLowerCase req "application/json"
  | UpdateRecord _ _ => validateContentType toLowerCase req "application/json"
  | _ => true
  end.

(** The answer is the error 429. *)
Definition rate_limited (result : HandlerResult) : bool :=
  match result with
  | Caught (ApiError status _) => status =? 429
  | _ => false
  end.

End Handlers.

(** A database that answers every call, to run the handlers on concrete
    requests: rows are their titles or ids. *)
Definition demo_db : @Prisma Z string :=
  mkPrisma
    (fun _ => Resolved [])
    (fun data => Resolved (cd_title data))
    (fun id _ => Resolved (Some id))
    (fun id _ => Resolved id)
    (fun id => Resolved id).

(** Truthiness of an integer JSON number. *)
Definition demo_number_truthy (n : Z) : bool := negb (n =? 0).

(** A request that announces a JSON body. *)
Definition demo_json_request : NextRequest :=
  mkRequest {[ "content-type" := "application/json" ]}.

(** ** Vocabulary of the statements about the cache *)

(** The key and the clock value of a cache operation. *)
Definition op_key (op : LRUCache.Op) : string :=
  match op with
  | OpGet _ k => k
  | OpSet _ k _ => k
  end.

Definition op_time (op : LRUCache.Op) : Z :=
  match op with
  | OpGet now _ => now
  | OpSet now _ _ => now
  end.

(** When [k] was last used in a history of operations: the position,
    counted from 1, of the last operation on [k], and [0] if there is
    none. *)
Fixpoint last_use (k : string) (ops : list LRUCache.Op) : nat :=
  match ops with
  | [] => 0
  | op :: ops' =>
      match last_use k ops' with
      | O => if String.eqb (op_key op) k then 1 else 0
      | S n => S (S n)
      end
  end.

(** ** Facts about the cache *)

Section CacheFacts.

Variable o : LRUCache.Options.

Lemma find_slot_key k s e : find_slot k s = Some e -> s_key e = k.
Proof.
  induction s as [|a s IH]; simpl; [discriminate|].
  destruct (String.eqb_spec (s_key a) k); [congruence | exact IH].
Qed.

Lemma find_slot_In k s e : find_slot k s = Some e -> In e s.
Proof.
  induction s as [|a s IH]; simpl; [discriminate|].
  destruct (String.eqb (s_key a) k); [left; congruence | right; auto].
Qed.

Lemma find_slot_None k s : find_slot k s = None <-> ~ In k (keys s).
Proof.
  induction s as [|a s IH]; simpl; [tauto|].
  destruct (String.eqb_spec (s_key a) k); [split; [discriminate | tauto] | tauto].
Qed.

Lemma find_slot_remove_key_eq k s : find_slot k (remove_key k s) = None.
Proof.
  induction s as [|a s IH]; simpl; [reflexivity|].
  destruct (String.eqb (s_key a) k) eqn:E; [exact IH | simpl; now rewrite E].
Qed.

Lemma find_slot_remove_key_ne k k' s :
  k <> k' -> find_slot k' (remove_key k s) = find_slot k' s.
Proof.
  intros Hne. induction s as [|a s IH]; simpl; [reflexivity|].
  destruct (String.eqb_spec (s_key a) k) as [E|E]; simpl.
  - destruct (String.eqb_spec (s_key a) k'); [congruence | exact IH].
  - now rewrite IH.
Qed.

Lemma remove_key_absent k s : find_slot k s = None -> remove_key k s = s.
Proof.
  induction s as [|a s IH]; simpl; [reflexivity|].
  destruct (String.eqb (s_key a) k); [discriminate | intros H; now rewrite IH].
Qed.

Lemma keys_remove_key_incl k s x : In x (keys (remove_key k s)) -> In x (keys s) /\ x <> k.
Proof.
  induction s as [|a s IH]; simpl; [tauto|].
  destruct (String.eqb_spec (s_key a) k) as [E|E]; simpl.
  - intros H. destruct (IH H). tauto.
  - intros [H|H]; [subst; tauto | destruct (IH H); tauto].
Qed.

Lemma NoDup_keys_remove_key k s : NoDup (keys s) -> NoDup (keys (remove_key k s)).
Proof.
  induction s as [|a s IH]; simpl; [auto|].
  rewrite !NoDup_cons. intros [Hn Hd].
  destruct (String.eqb (s_key a) k); simpl; [auto|].
  apply NoDup_cons. split; [|auto].
  rewrite list_elem_of_In in *. intros H. apply keys_remove_key_incl in H. tauto.
Qed.

Lemma length_remove_key_present k s e :
  find_slot k s = Some e -> (S (length (remove_key k s)) <= length s)%nat.
Proof.
  induction s as [|a s IH]; simpl; [discriminate|].
  destruct (String.eqb (s_key a) k).
  - intros _. clear IH. induction s as [|b s IH]; simpl; [lia|].
    destruct (String.eqb (s_key b) k); simpl; lia.
  - intros H. specialize (IH H). simpl. lia.
Qed.

Lemma length_remove_key_le k s : (length (remove_key k s) <= length s)%nat.
Proof.
  induction s as [|a s IH]; simpl; [lia|].
  destruct (String.eqb (s_key a) k); simpl; lia.
Qed.

(** A window that was just written is read back until it expires. *)
Lemma find_slot_set now k v s :
  find_slot k (LRUCache.set o now k v s) = Some (mkSlot k v now).
Proof.
  unfold LRUCache.set.
  destruct (find_slot k s); [|destruct (_ <=? _)%nat]; simpl;
    now rewrite String.eqb_refl.
Qed.

Lemma get_hit now k s e :
  find_slot k s = Some e -> now - s_written e <= ttl o ->
  LRUCache.get o now k s = (Some (s_value e), e :: remove_key k s).
Proof.
  intros Hf Hw. unfold LRUCache.get, is_stale. rewrite Hf.
  destruct (Z.ltb_spec (ttl o) (now - s_written e)); [lia | reflexivity].
Qed.

Lemma get_stale now k s e :
  find_slot k s = Some e -> ttl o < now - s_written e ->
  LRUCache.get o now k s = (None, remove_key k s).
Proof.
  intros Hf Hw. unfold LRUCache.get, is_stale. rewrite Hf.
  destruct (Z.ltb_spec (ttl o) (now - s_written e)); [reflexivity | lia].
Qed.

Lemma get_miss now k s :
  find_slot k s = None -> LRUCache.get o now k s = (None, s).
Proof. intros Hf. unfold LRUCache.get. now rewrite Hf. Qed.

(** Reading never changes what a later lookup of any key sees. *)
Lemma live_get now now' k k' s :
  now <= now' ->
  live o now' k' (snd (LRUCache.get o now k s)) = live o now' k' s.
Proof.
  intros Hle. unfold LRUCache.get, live.
  destruct (find_slot k s) as [e|] eqn:Hf; [|reflexivity].
  destruct (String.eqb_spec k k') as [<-|Hne].
  - unfold is_stale. destruct (Z.ltb_spec (ttl o) (now - s_written e)); simpl.
    + rewrite find_slot_remove_key_eq, Hf.
      destruct (Z.ltb_spec (ttl o) (now' - s_written e)); [reflexivity | lia].
    + rewrite (find_slot_key _ _ _ Hf), String.eqb_refl, Hf. reflexivity.
  - destruct (is_stale o now e); simpl.
    + now rewrite find_slot_remove_key_ne.
    + destruct (String.eqb_spec (s_key e) k') as [E|E].
      * apply find_slot_key in Hf. congruence.
      * now rewrite find_slot_remove_key_ne.
Qed.

End CacheFacts.


(** ** Facts about [check] *)

Section CheckFacts.

Variable options : RateLimitOptions.

Lemma filter_all_in_window now (l : list Z) :
  Forall (in_window options now) l ->
  List.filter (fun timestamp => now - timestamp <? interval options) l = l.
Proof.
  induction 1 as [|x l Hx _ IH]; simpl; [reflexivity|].
  unfold in_window in Hx.
  destruct (Z.ltb_spec (now - x) (interval options)); [now rewrite IH | lia].
Qed.

Lemma filter_none_in_window now (l : list Z) :
  Forall (fun ts => ~ in_window options now ts) l ->
  List.filter (fun timestamp => now - timestamp <? interval options) l = [].
Proof.
  induction 1 as [|x l Hx _ IH]; simpl; [reflexivity|].
  unfold in_window in Hx.
  destruct (Z.ltb_spec (now - x) (interval options)); [lia | exact IH].
Qed.

Lemma validTimestamps_miss now token s :
  find_slot token s = None ->
  validTimestamps options now token s = if now <? interval options then [0] else [].
Proof.
  intros Hf. unfold validTimestamps, tokenCount.
  rewrite get_miss by exact Hf. simpl. now rewrite Z.sub_0_r.
Qed.

Lemma validTimestamps_stale now token s e :
  find_slot token s = Some e -> interval options < now - s_written e ->
  validTimestamps options now token s = if now <? interval options then [0] else [].
Proof.
  intros Hf Hw. unfold validTimestamps, tokenCount.
  rewrite (get_stale _ _ _ _ e) by (simpl; assumption). simpl. now rewrite Z.sub_0_r.
Qed.

Lemma validTimestamps_hit now token s e :
  find_slot token s = Some e -> now - s_written e <= interval options ->
  validTimestamps options now token s =
  List.filter (fun timestamp => now - timestamp <? interval options) (s_value e).
Proof.
  intros Hf Hw. unfold validTimestamps, tokenCount.
  now rewrite (get_hit _ _ _ _ e) by (simpl; assumption).
Qed.

(** The two outcomes of [check], by the length test of the source. *)
Lemma check_denied now limit token s :
  limit <= Z.of_nat (length (validTimestamps options now token s)) ->
  check options now limit token s =
  (mkCheckResult false 0,
   snd (LRUCache.get (tokenCache_options options) now token s)).
Proof.
  intros H. unfold check.
  destruct (Z.leb_spec limit (Z.of_nat (length (validTimestamps options now token s))));
    [reflexivity | lia].
Qed.

Lemma check_allowed now limit token s :
  Z.of_nat (length (validTimestamps options now token s)) < limit ->
  check options now limit token s =
  (mkCheckResult true
     (limit - Z.of_nat (length (validTimestamps options now token s ++ [now]))),
   LRUCache.set (tokenCache_options options) now token
     (validTimestamps options now token s ++ [now])
     (snd (LRUCache.get (tokenCache_options options) now token s))).
Proof.
  intros H. unfold check.
  destruct (Z.leb_spec limit (Z.of_nat (length (validTimestamps options now token s))));
    [lia | reflexivity].
Qed.

Lemma success_iff now limit token s :
  success (fst (check options now limit token s)) = true <->
  Z.of_nat (length (validTimestamps options now token s)) < limit.
Proof.
  unfold check.
  destruct (Z.leb_spec limit (Z.of_nat (length (validTimestamps options now token s))));
    simpl; split; intros; (lia || congruence).
Qed.

(** After any call the window of the caller, if cached, was written at
    the time of a call. *)
Lemma find_slot_after_allowed now limit token s :
  success (fst (check options now limit token s)) = true ->
  find_slot token (snd (check options now limit token s)) =
  Some (mkSlot token (validTimestamps options now token s ++ [now]) now).
Proof.
  intros H. apply success_iff in H. rewrite check_allowed by exact H.
  simpl. apply find_slot_set.
Qed.

Lemma run_app calls1 calls2 s :
  run options (calls1 ++ calls2) s =
  (fst (run options calls1 s) ++ fst (run options calls2 (snd (run options calls1 s))),
   snd (run options calls2 (snd (run options calls1 s)))).
Proof.
  revert s. induction calls1 as [|c calls1 IH]; intros s; simpl.
  - now destruct (run options calls2 s).
  - destruct (check options (c_time c) (c_limit c) (c_token c) s) as [r s1].
    rewrite IH. destruct (run options calls1 s1) as [rs s2]. simpl.
    reflexivity.
Qed.

(** A caller whose cached window lies wholly inside [base, base + interval)
    is admitted on every call in that span while quota is left, and each
    admitted call is appended to the window. *)
Lemma burst_admitted limit token times : forall s e base,
  find_slot token s = Some e ->
  Forall (fun ts => base <= ts) (s_value e) ->
  base <= s_written e ->
  Forall (fun t => base <= t < base + interval options) times ->
  Z.of_nat (length (s_value e)) + Z.of_nat (length times) <= limit ->
  fst (run options (burst limit token times) s) =
    countdown (limit - Z.of_nat (length (s_value e))) (length times) /\
  exists e',
    find_slot token (snd (run options (burst limit token times) s)) = Some e' /\
    s_value e' = s_value e ++ times /\
    base <= s_written e'.
Proof.
  induction times as [|t times IH]; intros s e base Hf Hv Hw Ht Hlen.
  - simpl. split; [reflexivity|]. exists e. rewrite app_nil_r. auto.
  - apply Forall_cons in Ht as [Ht Hts]. simpl in Hlen.
    assert (Hvalid : validTimestamps options t token s = s_value e).
    { rewrite (validTimestamps_hit _ _ _ e) by (auto; lia).
      apply filter_all_in_window. eapply Forall_impl; [exact Hv|].
      intros ts Hts'. unfold in_window. simpl in Hts'. lia. }
    assert (Hlt : Z.of_nat (length (validTimestamps options t token s)) < limit)
      by (rewrite Hvalid; lia).
    pose proof (find_slot_after_allowed t limit token s
                  (proj2 (success_iff t limit token s) Hlt)) as Hf1.
    rewrite check_allowed in Hf1 by exact Hlt.
    simpl. rewrite check_allowed by exact Hlt.
    rewrite Hvalid in *. simpl in Hf1.
    set (s1 := LRUCache.set _ _ _ _ _) in *.
    destruct (IH s1 _ base Hf1) as [Hres (e' & Hf' & Hval & Hw')]; simpl.
    + apply Forall_app. split; [exact Hv | repeat constructor; lia].
    + lia.
    + exact Hts.
    + rewrite length_app. simpl. lia.
    + destruct (run options (burst limit token times) s1) as [rs s2] eqn:Hrun.
      simpl in *. split.
      * rewrite Hres, length_app. simpl. do 2 f_equal; lia.
      * exists e'. rewrite Hval, <- app_assoc. auto.
Qed.

(** Once the window inside the span is full, the next call in the span is
    refused. *)
Lemma full_window_denied limit token t s e base :
  find_slot token s = Some e ->
  Forall (fun ts => base <= ts) (s_value e) ->
  base <= s_written e ->
  base <= t < base + interval options ->
  limit <= Z.of_nat (length (s_value e)) ->
  fst (check options t limit token s) = mkCheckResult false 0.
Proof.
  intros Hf Hv Hw Ht Hlen.
  assert (Hvalid : validTimestamps options t token s = s_value e).
  { rewrite (validTimestamps_hit _ _ _ e) by (auto; lia).
    apply filter_all_in_window. eapply Forall_impl; [exact Hv|].
    intros ts Hts'. unfold in_window. simpl in Hts'. lia. }
  rewrite check_denied by (rewrite Hvalid; lia). reflexivity.
Qed.

(** The first call of a caller the cache does not know, on a clock that
    has left the first window after the epoch: the placeholder [0] is
    filtered out and the call is admitted. *)
Lemma check_unseen_past_first_window now limit token s :
  find_slot token s = None -> interval options <= now -> 0 < limit ->
  check options now limit token s =
  (mkCheckResult true (limit - 1),
   LRUCache.set (tokenCache_options options) now token [now] s).
Proof.
  intros Hf Hnow Hlim.
  assert (Hvalid : validTimestamps options now token s = []).
  { rewrite validTimestamps_miss by exact Hf.
    destruct (Z.ltb_spec now (interval options)); [lia | reflexivity]. }
  rewrite check_allowed by (rewrite Hvalid; simpl; lia).
  rewrite Hvalid, get_miss by exact Hf. reflexivity.
Qed.

(** The same call on a clock still inside the first window: the
    placeholder passes the filter and takes one unit of the quota. *)
Lemma check_unseen_on_early_clock now limit token s :
  find_slot token s = None -> now < interval options ->
  check options now limit token s =
  if limit <=? 1 then (mkCheckResult false 0, s)
  else (mkCheckResult true (limit - 2),
        LRUCache.set (tokenCache_options options) now token [0; now] s).
Proof.
  intros Hf Hnow.
  assert (Hvalid : validTimestamps options now token s = [0]).
  { rewrite validTimestamps_miss by exact Hf.
    destruct (Z.ltb_spec now (interval options)); [reflexivity | lia]. }
  destruct (Z.leb_spec limit 1).
  - rewrite check_denied by (rewrite Hvalid; simpl; lia).
    now rewrite get_miss by exact Hf.
  - rewrite check_allowed by (rewrite Hvalid; simpl; lia).
    rewrite Hvalid, get_miss by exact Hf. reflexivity.
Qed.

(** On a clock past the first window a new caller gets exactly [limit]
    calls inside one window: [remaining] counts down to [0] and the next call is refused. *)
Lemma unseen_burst_past_first_window limit token t1 rest s :
  0 < limit ->
  find_slot token s = None ->
  interval options <= t1 ->
  length rest = Z.to_nat limit ->
  Forall (fun t => t1 <= t < t1 + interval options) rest ->
  fst (run options (burst limit token (t1 :: rest)) s) =
  countdown limit (Z.to_nat limit) ++ [mkCheckResult false 0].
Proof.
  intros Hlim Hf Hnow Hlen Hrest.
  destruct (Z.to_nat limit) as [|n] eqn:Hn; [lia|].
  destruct (exists_last (l := rest)) as (mid & tl & ->);
    [intros ->; discriminate|].
  rewrite length_app in Hlen. simpl in Hlen.
  apply Forall_app in Hrest as [Hmid Htl]. apply Forall_inv in Htl.
  change (burst limit token (t1 :: mid ++ [tl]))
    with (mkCall t1 limit token :: burst limit token (mid ++ [tl])).
  unfold burst at 1. rewrite map_app. fold (burst limit token mid). simpl map.
  cbn [run c_time c_limit c_token].
  rewrite check_unseen_past_first_window by assumption.
  set (s1 := LRUCache.set _ _ _ _ _).
  rewrite run_app.
  destruct (burst_admitted limit token mid s1 (mkSlot token [t1] t1) t1)
    as [Hres (e' & Hf' & Hval & Hw')].
  { apply find_slot_set. }
  { simpl. repeat constructor; lia. }
  { simpl. lia. }
  { exact Hmid. }
  { simpl. lia. }
  simpl in Hres, Hval. rewrite Hres.
  destruct (run options (burst limit token mid) s1) as [rs s2]; simpl in *.
  assert (Hr : fst (check options tl limit token s2) = mkCheckResult false 0).
  { apply (full_window_denied limit token tl s2 e' t1); auto.
    - rewrite Hval. constructor; [lia|].
      eapply Forall_impl; [exact Hmid|]. simpl. intros; lia.
    - rewrite Hval. simpl. lia. }
  destruct (check options tl limit token s2) as [r s3]. simpl in *. subst r.
  replace (length mid) with n by lia. reflexivity.
Qed.

End CheckFacts.

(** ** The verdict of one call *)

Section Verdicts.

Variable options : RateLimitOptions.

Lemma get_fst_live now k s :
  fst (LRUCache.get (tokenCache_options options) now k s) =
  fst <$> live (tokenCache_options options) now k s.
Proof.
  unfold LRUCache.get, live. destruct (find_slot k s) as [e|]; [|reflexivity].
  now destruct (is_stale _ now e).
Qed.

(** The verdict depends on the cache only through what a lookup sees. *)
Lemma verdict_by_live now limit k s s' :
  live (tokenCache_options options) now k s' = live (tokenCache_options options) now k s ->
  fst (check options now limit k s') = fst (check options now limit k s).
Proof.
  intros Hl.
  assert (Hv : validTimestamps options now k s' = validTimestamps options now k s).
  { unfold validTimestamps, tokenCount. now rewrite !get_fst_live, Hl. }
  unfold check. rewrite Hv.
  now destruct (limit <=? Z.of_nat (length (validTimestamps options now k s))).
Qed.

Lemma remaining_allowed now limit token s :
  success (fst (check options now limit token s)) = true ->
  remaining (fst (check options now limit token s)) =
  limit - Z.of_nat (length (validTimestamps options now token s)) - 1.
Proof.
  intros H. apply success_iff in H. rewrite check_allowed by exact H.
  simpl. rewrite length_app. simpl. lia.
Qed.

End Verdicts.

(** ** The claims about one call *)

(** C7: for every key and every [limit <= 0], [check] refuses the call: the
    filtered window has length at least [0], which is [>= limit]. *)
Theorem nonpositive_limit_always_denied options now limit token s :
  limit <= 0 ->
  fst (check options now limit token s) = mkCheckResult false 0.
Proof.
  intros Hlim. rewrite check_denied; [reflexivity | lia].
Qed.

Lemma nonpositive_limit_always_denied_witness :
  fst (check apiLimiter_options 1700000000000 0 "user:u1" []) = mkCheckResult false 0.
Proof.
  apply (nonpositive_limit_always_denied apiLimiter_options 1700000000000 0 "user:u1" []).
  lia.
Defined.

(** C5: a key absent from the cache is read as [[0]], and that placeholder
    is meant never to count as a call.  On a clock that is still inside
    the first window after the epoch the filter keeps it: the first call
    of the shared limiter for a new caller with [limit = 1] is refused,
    and with [limit = 20] it leaves [18] instead of [19].  (See
    [check_unseen_on_early_clock] for every such clock; on a later clock
    the claim holds, see [check_unseen_past_first_window].) *)
Theorem placeholder_counted_on_early_clock :
  validTimestamps apiLimiter_options 30000 "ip:unknown" [] = [0] /\
  check apiLimiter_options 30000 1 "ip:unknown" [] = (mkCheckResult false 0, []) /\
  fst (check apiLimiter_options 30000 20 "ip:unknown" []) = mkCheckResult true 18.
Proof. repeat split. Qed.

(** The same happens on any clock when the window is longer than the
    time since the epoch. *)
Example placeholder_counted_in_long_window :
  check {| interval := 2000000000000; uniqueTokenPerInterval := 500 |}
        1790000000000 1 "ip:unknown" [] = (mkCheckResult false 0, []).
Proof. reflexivity. Qed.

(** C1: a new caller is meant to get [limit] calls inside one window.  On
    a clock still inside the first window after the epoch the placeholder
    [0] of the missing entry takes one of them: with [limit = 3] the third
    call is already refused.  (On a later clock the claim holds, see
    [unseen_burst_past_first_window].) *)
Theorem unseen_burst_on_early_clock :
  fst (run apiLimiter_options (burst 3 "ip:unknown" [30000; 30001; 30002; 30003]) []) =
  [mkCheckResult true 1; mkCheckResult true 0;
   mkCheckResult false 0; mkCheckResult false 0].
Proof. reflexivity. Qed.

(** The scenario of the description, on a clock past the first window:
    three calls admitted with [remaining] 2, 1, 0, the fourth refused, and
    a fifth admitted once the first has left the window. *)
Example scenario_sliding_window :
  fst (run {| interval := 1000; uniqueTokenPerInterval := 500 |}
         (burst 3 "user:u1" [10000; 10100; 10200; 10300; 11050]) []) =
  [mkCheckResult true 2; mkCheckResult true 1; mkCheckResult true 0;
   mkCheckResult false 0; mkCheckResult true 0].
Proof. reflexivity. Qed.

(** Two callers do not interfere: exhausting one leaves the other its
    full quota. *)
Example scenario_two_keys :
  fst (run apiLimiter_options
         [mkCall 1700000000000 1 "user:a"; mkCall 1700000000001 1 "user:a";
          mkCall 1700000000002 1 "user:b"] []) =
  [mkCheckResult true 0; mkCheckResult false 0; mkCheckResult true 0].
Proof. reflexivity. Qed.

(** C3 as stated fails: a refused call reads the cache, and the read makes
    the caller the most recently used.  With room for two callers, the
    refused call of ["a"] decides that the arrival of ["c"] evicts ["b"]
    and not ["a"], so ["a"] stays throttled where it would have started
    afresh. *)
Lemma denied_call_refreshes_recency :
  let options := {| interval := 1000; uniqueTokenPerInterval := 2 |} in
  let s := snd (run options [mkCall 10000 1 "a"; mkCall 10001 1 "b"] []) in
  let later := [mkCall 10003 1 "c"; mkCall 10004 1 "a"] in
  1 <= Z.of_nat (length (validTimestamps options 10002 "a" s)) /\
  fst (check options 10002 1 "a" s) = mkCheckResult false 0 /\
  snd (check options 10002 1 "a" s) <> s /\
  fst (run options later (snd (check options 10002 1 "a" s))) =
    [mkCheckResult true 0; mkCheckResult false 0] /\
  fst (run options later s) = [mkCheckResult true 0; mkCheckResult true 0].
Proof. cbv zeta. vm_compute. repeat split; try discriminate. Qed.

(** C3, amended: whenever the filtered window has length [>= limit],
    [check] returns [{success: false, remaining: 0}] and calls no [set]:
    the window and the write time that any later lookup sees are the same
    for every key, hence so is every later verdict taken on the cache as
    it stands.  Only the recency of the caller is refreshed by the read. *)
Theorem denied_call_records_nothing options now limit token s :
  limit <= Z.of_nat (length (validTimestamps options now token s)) ->
  fst (check options now limit token s) = mkCheckResult false 0 /\
  snd (check options now limit token s) =
    snd (LRUCache.get (tokenCache_options options) now token s) /\
  (forall k now', now <= now' ->
     live (tokenCache_options options) now' k (snd (check options now limit token s)) =
     live (tokenCache_options options) now' k s) /\
  (forall k now' limit', now <= now' ->
     fst (check options now' limit' k (snd (check options now limit token s))) =
     fst (check options now' limit' k s)).
Proof.
  intros H. rewrite check_denied by exact H. simpl.
  repeat split; try reflexivity.
  - intros k now' Hle. now apply live_get.
  - intros k now' limit' Hle. apply verdict_by_live. now apply live_get.
Qed.

Lemma denied_call_records_nothing_witness :
  let options := {| interval := 1000; uniqueTokenPerInterval := 2 |} in
  let s := [mkSlot "b" [10001] 10001; mkSlot "a" [10000] 10000] in
  fst (check options 10002 1 "a" s) = mkCheckResult false 0 /\
  fst (check options 10500 1 "b" (snd (check options 10002 1 "a" s))) =
  fst (check options 10500 1 "b" s).
Proof.
  cbv zeta.
  destruct (denied_call_records_nothing
              {| interval := 1000; uniqueTokenPerInterval := 2 |} 10002 1 "a"
              [mkSlot "b" [10001] 10001; mkSlot "a" [10000] 10000])
    as (Hr & _ & _ & Hv).
  - vm_compute. discriminate.
  - split; [exact Hr | apply Hv; lia].
Defined.




(** ** Histories of calls *)

Section Histories.

Variable options : RateLimitOptions.

Lemma In_remove_key k s e : In e (remove_key k s) -> In e s.
Proof.
  induction s as [|a s IH]; simpl; [tauto|].
  destruct (String.eqb (s_key a) k); simpl; tauto.
Qed.

Lemma In_evict_lru (s : Store) e : In e (evict_lru s) -> In e s.
Proof.
  unfold evict_lru. induction s as [|a s IH]; simpl; [tauto|].
  destruct s as [|b s]; [simpl; tauto|]. intros [H|H]; [tauto | right; auto].
Qed.

Lemma In_get o now k s e : In e (snd (LRUCache.get o now k s)) -> In e s.
Proof.
  unfold LRUCache.get. destruct (find_slot k s) as [a|] eqn:Hf; simpl; [|tauto].
  destruct (is_stale o now a); simpl.
  - apply In_remove_key.
  - intros [<-|H]; [eapply find_slot_In; eauto | eapply In_remove_key; eauto].
Qed.

Lemma In_set o now k v s e :
  In e (LRUCache.set o now k v s) -> e = mkSlot k v now \/ In e s.
Proof.
  unfold LRUCache.set. destruct (find_slot k s); [|destruct (_ <=? _)%nat]; simpl;
    intros [H|H]; auto; right; eauto using In_remove_key, In_evict_lru.
Qed.

Lemma In_tokenCount now k s ts :
  In ts (tokenCount options now k s) ->
  ts = 0 \/ exists e, find_slot k s = Some e /\ In ts (s_value e).
Proof.
  unfold tokenCount, LRUCache.get.
  destruct (find_slot k s) as [e|]; [destruct (is_stale _ now e)|]; simpl;
    intros H; try (destruct H as [<-|[]]; now left).
  right. eauto.
Qed.

(** No recorded timestamp is later than the clock. *)
Lemma check_stamps_le T now limit k s :
  0 <= T -> now <= T ->
  Forall (fun e => Forall (fun ts => ts <= T) (s_value e)) s ->
  Forall (fun e => Forall (fun ts => ts <= T) (s_value e))
         (snd (check options now limit k s)).
Proof.
  intros HT Hnow Hs. rewrite Forall_forall in Hs.
  setoid_rewrite list_elem_of_In in Hs.
  apply Forall_forall. intros e. rewrite list_elem_of_In.
  unfold check. destruct (_ <=? _); simpl.
  - intros H. apply In_get in H. auto.
  - intros H. apply In_set in H as [->|H]; [|apply In_get in H; auto].
    simpl. apply Forall_app. split; [|repeat constructor; lia].
    apply Forall_forall. intros ts. rewrite list_elem_of_In.
    unfold validTimestamps. rewrite filter_In. intros [Hin _].
    apply In_tokenCount in Hin as [->|(a & Ha & Hin)]; [exact HT|].
    apply find_slot_In in Ha. specialize (Hs a Ha).
    rewrite Forall_forall in Hs. apply Hs. now apply list_elem_of_In.
Qed.

Lemma run_stamps_le T calls : forall s,
  0 <= T -> Forall (fun c => c_time c <= T) calls ->
  Forall (fun e => Forall (fun ts => ts <= T) (s_value e)) s ->
  Forall (fun e => Forall (fun ts => ts <= T) (s_value e))
         (snd (run options calls s)).
Proof.
  induction calls as [|c calls IH]; intros s HT Hc Hs; simpl; [exact Hs|].
  apply Forall_cons in Hc as [Hc Hcs].
  pose proof (check_stamps_le T (c_time c) (c_limit c) (c_token c) s HT Hc Hs) as H1.
  destruct (check options (c_time c) (c_limit c) (c_token c) s) as [r s1].
  specialize (IH s1 HT Hcs H1).
  destruct (run options calls s1) as [rs s2]. exact IH.
Qed.

(** Calls of other callers leave the window of [token] as it is, or evict it. *)
Lemma find_slot_evict_lru k (s : Store) e :
  find_slot k (evict_lru s) = Some e -> find_slot k s = Some e.
Proof.
  unfold evict_lru. induction s as [|a s IH]; simpl; [discriminate|].
  destruct s as [|b s]; [discriminate|].
  change (find_slot k (a :: removelast (b :: s)))
    with (if String.eqb (s_key a) k then Some a else find_slot k (removelast (b :: s))).
  destruct (String.eqb (s_key a) k); auto.
Qed.

Lemma find_slot_get_other o now k token s :
  k <> token ->
  find_slot token (snd (LRUCache.get o now k s)) = find_slot token s.
Proof.
  intros Hne. unfold LRUCache.get.
  destruct (find_slot k s) as [a|] eqn:Hf; [|reflexivity].
  destruct (is_stale o now a); simpl.
  - now apply find_slot_remove_key_ne.
  - apply find_slot_key in Hf.
    destruct (String.eqb_spec (s_key a) token); [congruence|].
    now apply find_slot_remove_key_ne.
Qed.

Lemma find_slot_set_other o now k v token s e :
  k <> token ->
  find_slot token (LRUCache.set o now k v s) = Some e -> find_slot token s = Some e.
Proof.
  intros Hne. unfold LRUCache.set.
  destruct (find_slot k s); [|destruct (_ <=? _)%nat]; simpl;
    (destruct (String.eqb_spec k token); [congruence|]).
  - now rewrite find_slot_remove_key_ne.
  - apply find_slot_evict_lru.
  - auto.
Qed.

Lemma find_slot_check_other now limit k token s e :
  k <> token ->
  find_slot token (snd (check options now limit k s)) = Some e ->
  find_slot token s = Some e.
Proof.
  intros Hne. unfold check. destruct (_ <=? _); simpl.
  - now rewrite find_slot_get_other.
  - intros H. apply find_slot_set_other in H; [|exact Hne].
    now rewrite find_slot_get_other in H.
Qed.

Lemma find_slot_run_others token calls : forall s e,
  Forall (fun c => c_token c <> token) calls ->
  find_slot token (snd (run options calls s)) = Some e ->
  find_slot token s = Some e.
Proof.
  induction calls as [|c calls IH]; intros s e Hc; simpl; [auto|].
  apply Forall_cons in Hc as [Hc Hcs].
  pose proof (find_slot_check_other (c_time c) (c_limit c) (c_token c) token s e Hc) as H1.
  destruct (check options (c_time c) (c_limit c) (c_token c) s) as [r s1].
  specialize (IH s1 e Hcs).
  destruct (run options calls s1) as [rs s2]. simpl in *. auto.
Qed.

Lemma chronological_since since calls :
  chronological since calls = true -> Forall (fun c => since <= c_time c) calls.
Proof.
  revert since. induction calls as [|c calls IH]; intros since; simpl; [constructor|].
  rewrite andb_true_iff, Z.leb_le. intros [H1 H2]. constructor; [exact H1|].
  eapply Forall_impl; [apply IH, H2|]. simpl. intros; lia.
Qed.

Lemma chronological_before since pre c rest :
  chronological since (pre ++ c :: rest) = true ->
  since <= c_time c /\ Forall (fun x => c_time x <= c_time c) (pre ++ [c]) /\
  chronological (c_time c) rest = true.
Proof.
  revert since. induction pre as [|p pre IH]; intros since; simpl.
  - rewrite andb_true_iff, Z.leb_le. intros [H1 H2].
    repeat split; [exact H1 | repeat constructor; lia | exact H2].
  - rewrite andb_true_iff, Z.leb_le. intros [H1 H2].
    destruct (IH _ H2) as (Ha & Hb & Hc). repeat split; [lia | | exact Hc].
    constructor; [lia | exact Hb].
Qed.

(** Once the clock is more than a window past every recorded timestamp
    of a caller, nothing survives the filter. *)
Lemma validTimestamps_all_slid T now token s :
  0 <= T -> interval options < now - T ->
  (forall e, find_slot token s = Some e -> Forall (fun ts => ts <= T) (s_value e)) ->
  validTimestamps options now token s = [].
Proof.
  intros HT Hgap Hs. unfold validTimestamps.
  apply filter_none_in_window. apply Forall_forall. intros ts.
  rewrite list_elem_of_In. intros Hin. unfold in_window.
  apply In_tokenCount in Hin as [->|(e & He & Hin)]; [lia|].
  specialize (Hs e He). rewrite Forall_forall in Hs.
  apply list_elem_of_In, Hs in Hin. lia.
Qed.

End Histories.

(** C8: for every key whose last call was refused, if no call for that key
    occurs for strictly longer than [interval] milliseconds, the next
    [check(limit, key)] with [limit > 0] is admitted.  The history is any
    sequence of calls served from the empty cache on a clock of
    milliseconds since the epoch that never runs backwards: [pre], then
    the refused call [c0], then calls [mid] of other callers. *)
Theorem exhausted_key_recovers options pre c0 mid t limit :
  chronological 0 (pre ++ c0 :: mid ++ [mkCall t limit (c_token c0)]) = true ->
  Forall (fun c => c_token c <> c_token c0) mid ->
  success (fst (check options (c_time c0) (c_limit c0) (c_token c0)
                  (snd (run options pre [])))) = false ->
  interval options < t - c_time c0 ->
  0 < limit ->
  success (fst (check options t limit (c_token c0)
                  (snd (run options (pre ++ c0 :: mid) [])))) = true.
Proof.
  intros Hchron Hmid _ Hgap Hlim.
  apply chronological_before in Hchron as (H0 & Hpre & _).
  apply success_iff.
  rewrite (validTimestamps_all_slid options (c_time c0)); [simpl; lia | exact H0 | exact Hgap |].
  intros e He.
  change (pre ++ c0 :: mid) with (pre ++ [c0] ++ mid) in He.
  rewrite app_assoc, run_app in He. simpl in He.
  apply find_slot_run_others in He; [|exact Hmid].
  pose proof (run_stamps_le options (c_time c0) (pre ++ [c0]) [] H0 Hpre (List.Forall_nil _)) as Hinv.
  rewrite Forall_forall in Hinv. apply Hinv, list_elem_of_In.
  eapply find_slot_In, He.
Qed.

Lemma exhausted_key_recovers_witness :
  success (fst (check apiLimiter_options 1700000061001 1 "user:u1"
                  (snd (run apiLimiter_options
                          ([mkCall 1700000000000 1 "user:u1"] ++
                           mkCall 1700000001000 1 "user:u1" ::
                           [mkCall 1700000002000 1 "user:u2"]) [])))) = true.
Proof.
  apply (exhausted_key_recovers apiLimiter_options
           [mkCall 1700000000000 1 "user:u1"]
           (mkCall 1700000001000 1 "user:u1")
           [mkCall 1700000002000 1 "user:u2"]
           1700000061001 1).
  - reflexivity.
  - repeat constructor; simpl; discriminate.
  - reflexivity.
  - simpl. lia.
  - lia.
Defined.

(** ** The cache as a bounded, expiring store *)

Section CacheInvariant.

Variable o : LRUCache.Options.
Hypothesis capacity : (0 < maxKeys o)%nat.

Lemma length_evict_lru (s : Store) : length (evict_lru s) = pred (length s).
Proof.
  unfold evict_lru. induction s as [|a s IH]; simpl; [reflexivity|].
  destruct s as [|b s]; [reflexivity|]. simpl in *. now rewrite IH.
Qed.

Lemma keys_evict_lru s : keys (evict_lru s) = removelast (keys s).
Proof.
  unfold evict_lru, keys. induction s as [|a s IH]; simpl; [reflexivity|].
  destruct s as [|b s]; [reflexivity|]. simpl in *. now rewrite IH.
Qed.

Lemma NoDup_keys_evict_lru s : NoDup (keys s) -> NoDup (keys (evict_lru s)).
Proof.
  induction s as [|a s IH]; [auto|].
  destruct s as [|b s]; [intros _; constructor|].
  change (evict_lru (a :: b :: s)) with (a :: evict_lru (b :: s)).
  change (keys (a :: evict_lru (b :: s))) with (s_key a :: keys (evict_lru (b :: s))).
  change (keys (a :: b :: s)) with (s_key a :: keys (b :: s)).
  rewrite !NoDup_cons. intros [Hn Hd]. split; [|auto].
  rewrite list_elem_of_In in *. intros H. apply Hn.
  apply in_map_iff in H as (e & He & Hin). apply In_evict_lru in Hin.
  apply in_map_iff. eauto.
Qed.

Lemma NoDup_keys_front k e s :
  s_key e = k -> NoDup (keys s) -> NoDup (keys (e :: remove_key k s)).
Proof.
  intros Hk Hd. change (NoDup (s_key e :: keys (remove_key k s))).
  apply NoDup_cons. split; [|now apply NoDup_keys_remove_key].
  rewrite list_elem_of_In, Hk. apply find_slot_None, find_slot_remove_key_eq.
Qed.

Lemma get_keeps_bound now k s :
  (length s <= maxKeys o)%nat /\ NoDup (keys s) ->
  (length (snd (LRUCache.get o now k s)) <= maxKeys o)%nat /\
  NoDup (keys (snd (LRUCache.get o now k s))).
Proof.
  intros [Hlen Hd]. unfold LRUCache.get.
  destruct (find_slot k s) as [e|] eqn:Hf; [|auto].
  pose proof (length_remove_key_present k s e Hf).
  destruct (is_stale o now e); simpl.
  - split; [lia | now apply NoDup_keys_remove_key].
  - split; [lia | eapply NoDup_keys_front; eauto using find_slot_key].
Qed.

Lemma set_keeps_bound now k v s :
  (length s <= maxKeys o)%nat /\ NoDup (keys s) ->
  (length (LRUCache.set o now k v s) <= maxKeys o)%nat /\
  NoDup (keys (LRUCache.set o now k v s)).
Proof.
  intros [Hlen Hd]. unfold LRUCache.set.
  destruct (find_slot k s) as [e|] eqn:Hf.
  - pose proof (length_remove_key_present k s e Hf). simpl.
    split; [lia | now apply (NoDup_keys_front k (mkSlot k v now))].
  - destruct (Nat.leb_spec (maxKeys o) (length s)) as [Hfull|Hroom].
    + split; [simpl; rewrite length_evict_lru; lia|].
      change (NoDup (k :: keys (evict_lru s))). apply NoDup_cons.
      split; [|now apply NoDup_keys_evict_lru].
      rewrite list_elem_of_In. intros H.
      apply in_map_iff in H as (e & He & Hin). apply In_evict_lru in Hin.
      apply find_slot_None in Hf. apply Hf, in_map_iff. eauto.
    + split; [simpl; lia|].
      change (NoDup (k :: keys s)). apply NoDup_cons. split; [|exact Hd].
      rewrite list_elem_of_In. now apply find_slot_None.
Qed.

Lemma run_ops_keeps_bound ops : forall s,
  (length s <= maxKeys o)%nat /\ NoDup (keys s) ->
  (length (run_ops o ops s) <= maxKeys o)%nat /\ NoDup (keys (run_ops o ops s)).
Proof.
  induction ops as [|op ops IH]; intros s Hs; [exact Hs|].
  apply IH. destruct op; simpl; [now apply get_keeps_bound | now apply set_keeps_bound].
Qed.

Lemma reachable_bounded s :
  reachable o s -> (length s <= maxKeys o)%nat /\ NoDup (keys s).
Proof.
  intros [ops ->]. apply run_ops_keeps_bound. split; [simpl; lia | constructor].
Qed.

End CacheInvariant.

(** ** The cache keeps its keys in the order of their last use *)

Section CacheRecency.

Variable o : LRUCache.Options.

Lemma last_use_snoc k ops op :
  last_use k (ops ++ [op]) =
  if String.eqb (op_key op) k then S (length ops) else last_use k ops.
Proof.
  induction ops as [|a ops IH]; simpl.
  - now destruct (String.eqb (op_key op) k).
  - rewrite IH. now destruct (String.eqb (op_key op) k).
Qed.

Lemma last_use_le k ops : (last_use k ops <= length ops)%nat.
Proof.
  induction ops as [|a ops IH]; simpl; [lia|].
  destruct (last_use k ops); [destruct (String.eqb (op_key a) k)|]; lia.
Qed.

Lemma last_use_others ops op (l : Store) :
  Forall (fun e => s_key e <> op_key op) l ->
  map (fun e => last_use (s_key e) (ops ++ [op])) l =
  map (fun e => last_use (s_key e) ops) l.
Proof.
  induction 1 as [|e l He _ IH]; simpl; [reflexivity|].
  rewrite IH, last_use_snoc.
  destruct (String.eqb_spec (op_key op) (s_key e)); [congruence | reflexivity].
Qed.

Lemma remove_key_others k s : Forall (fun e => s_key e <> k) (remove_key k s).
Proof.
  induction s as [|a s IH]; simpl; [constructor|].
  destruct (String.eqb_spec (s_key a) k); [exact IH | now constructor].
Qed.

Lemma absent_others k s : find_slot k s = None -> Forall (fun e => s_key e <> k) s.
Proof.
  intros H. rewrite <- (remove_key_absent k s H). apply remove_key_others.
Qed.

Lemma evict_lru_others k (s : Store) :
  Forall (fun e => s_key e <> k) s -> Forall (fun e => s_key e <> k) (evict_lru s).
Proof.
  intros H. apply Forall_forall. intros e He. rewrite Forall_forall in H.
  apply H. apply list_elem_of_In. apply In_evict_lru. now apply list_elem_of_In.
Qed.

Lemma descending_remove_key (f : Slot -> nat) k s :
  StronglySorted gt (map f s) -> StronglySorted gt (map f (remove_key k s)).
Proof.
  induction s as [|a s IH]; simpl; [auto|]. intros H.
  apply StronglySorted_inv in H as [Hs Ha]. specialize (IH Hs).
  destruct (String.eqb (s_key a) k); [exact IH|]. simpl. constructor; [exact IH|].
  rewrite List.Forall_forall in *. intros x Hx. apply Ha.
  apply in_map_iff in Hx as (e & <- & He). apply in_map. eapply In_remove_key, He.
Qed.

Lemma descending_evict_lru (f : Slot -> nat) (s : Store) :
  StronglySorted gt (map f s) -> StronglySorted gt (map f (evict_lru s)).
Proof.
  unfold evict_lru. induction s as [|a s IH]; [auto|]. intros H.
  destruct s as [|b s]; [constructor|].
  change (StronglySorted gt (f a :: map f (removelast (b :: s)))).
  change (StronglySorted gt (f a :: map f (b :: s))) in H.
  apply StronglySorted_inv in H as [Hs Ha]. constructor; [now apply IH|].
  rewrite List.Forall_forall in *. intros x Hx. apply Ha.
  apply in_map_iff in Hx as (e & <- & He). apply in_map.
  now apply (In_evict_lru (b :: s)).
Qed.

(** The key of the operation comes first; behind it the order of the
    others is kept. *)
Lemma descending_front ops op e (l : Store) :
  s_key e = op_key op ->
  Forall (fun x => s_key x <> op_key op) l ->
  StronglySorted gt (map (fun x => last_use (s_key x) ops) l) ->
  StronglySorted gt (map (fun x => last_use (s_key x) (ops ++ [op])) (e :: l)).
Proof.
  intros Hk Hl Hs. simpl. rewrite (last_use_others ops op l Hl).
  constructor; [exact Hs|].
  rewrite last_use_snoc, Hk, String.eqb_refl.
  apply List.Forall_forall. intros x Hx.
  apply in_map_iff in Hx as (y & <- & _).
  pose proof (last_use_le (s_key y) ops). lia.
Qed.

Lemma descending_step ops op s :
  StronglySorted gt (map (fun e => last_use (s_key e) ops) s) ->
  StronglySorted gt (map (fun e => last_use (s_key e) (ops ++ [op])) (step o s op)).
Proof.
  intros Hs. destruct op as [now k|now k v]; simpl.
  - unfold LRUCache.get. destruct (find_slot k s) as [e|] eqn:Hf; simpl.
    + destruct (is_stale o now e); simpl.
      * rewrite (last_use_others ops (OpGet now k)) by apply remove_key_others.
        now apply descending_remove_key.
      * apply (descending_front ops (OpGet now k) e);
          [eapply find_slot_key, Hf | apply remove_key_others
          | now apply descending_remove_key].
    + rewrite (last_use_others ops (OpGet now k)) by now apply absent_others.
      exact Hs.
  - unfold LRUCache.set. destruct (find_slot k s) as [e|] eqn:Hf.
    + apply (descending_front ops (OpSet now k v) (mkSlot k v now));
        [reflexivity | apply remove_key_others | now apply descending_remove_key].
    + apply absent_others in Hf. destruct (_ <=? _)%nat.
      * apply (descending_front ops (OpSet now k v) (mkSlot k v now));
          [reflexivity | now apply evict_lru_others | now apply descending_evict_lru].
      * now apply (descending_front ops (OpSet now k v) (mkSlot k v now)).
Qed.

Lemma run_ops_snoc ops op s :
  run_ops o (ops ++ [op]) s = step o (run_ops o ops s) op.
Proof. unfold run_ops. now rewrite fold_left_app. Qed.

(** After any history the cache lists its keys from the most to the
    least recently used. *)
Lemma run_ops_descending ops :
  StronglySorted gt (map (fun e => last_use (s_key e) ops) (run_ops o ops [])).
Proof.
  induction ops as [|op ops IH] using rev_ind; [constructor|].
  rewrite run_ops_snoc. now apply descending_step.
Qed.

Lemma descending_last (l : list nat) x :
  StronglySorted gt (l ++ [x]) -> Forall (fun y => (x < y)%nat) l.
Proof.
  induction l as [|a l IH]; simpl; [constructor|]. intros H.
  apply StronglySorted_inv in H as [Hs Ha]. constructor; [|now apply IH].
  rewrite List.Forall_forall in Ha. specialize (Ha x). 
  assert (a > x)%nat by (apply Ha, in_or_app; right; now left). lia.
Qed.

(** Every slot is what some [set] of the history wrote. *)
Lemma run_ops_written ops e :
  In e (run_ops o ops []) -> In (OpSet (s_written e) (s_key e) (s_value e)) ops.
Proof.
  revert e. induction ops as [|op ops IH] using rev_ind; intros e; [intros []|].
  rewrite run_ops_snoc. intros H. apply in_or_app.
  destruct op as [now k|now k v]; simpl in H.
  - left. apply IH. eapply In_get, H.
  - apply In_set in H as [->|H]; [right; now left | left; now apply IH].
Qed.

(** A key on which nothing was done for longer than [ttl] is absent. *)
Lemma idle_key_absent ops now k :
  Forall (fun op => op_key op = k -> ttl o < now - op_time op) ops ->
  LRUCache.get o now k (run_ops o ops []) = (None, remove_key k (run_ops o ops [])).
Proof.
  intros Hidle. destruct (find_slot k (run_ops o ops [])) as [e|] eqn:Hf.
  - apply (get_stale o now k _ e Hf).
    pose proof (find_slot_key _ _ _ Hf) as Hk.
    apply find_slot_In, run_ops_written in Hf.
    rewrite Forall_forall in Hidle. apply list_elem_of_In in Hf.
    exact (Hidle _ Hf Hk).
  - rewrite (remove_key_absent _ _ Hf). now apply get_miss.
Qed.

End CacheRecency.

(** C9 as stated fails for [maxKeys = 0]: a cache built with room for no
    key still stores the key that is set. *)
Lemma zero_capacity_cache_stores_a_key :
  let options := {| interval := 1000; uniqueTokenPerInterval := 0 |} in
  let s := run_ops (tokenCache_options options) [OpSet 10000 "a" [10000]] [] in
  reachable (tokenCache_options options) s /\
  s = snd (check options 10000 1 "a" []) /\
  length s = 1%nat /\
  ~ (length s <= uniqueTokenPerInterval options)%nat.
Proof.
  cbv zeta. split; [eexists; reflexivity|]. vm_compute. repeat split. lia.
Qed.

(** C9, amended: for [maxKeys > 0], after every history of [get] and
    [set] calls the cache holds at most [maxKeys] entries, no key twice,
    and lists them from the most to the least recently used; a new key
    arriving at capacity takes the place of exactly one key, the one whose
    last use is the oldest; and a key on which nothing was done for longer
    than [ttl] milliseconds is absent on its next access: the call then
    goes exactly as on the cache without that key. *)
Theorem cache_bounded_and_expiring options ops :
  (0 < uniqueTokenPerInterval options)%nat ->
  (length (run_ops (tokenCache_options options) ops []) <=
     uniqueTokenPerInterval options)%nat /\
  NoDup (keys (run_ops (tokenCache_options options) ops [])) /\
  StronglySorted gt
    (map (fun e => last_use (s_key e) ops)
         (run_ops (tokenCache_options options) ops [])) /\
  (forall now k v,
     length (run_ops (tokenCache_options options) ops []) =
       uniqueTokenPerInterval options ->
     find_slot k (run_ops (tokenCache_options options) ops []) = None ->
     exists rest victim,
       run_ops (tokenCache_options options) ops [] = rest ++ [victim] /\
       LRUCache.set (tokenCache_options options) now k v
         (run_ops (tokenCache_options options) ops []) = mkSlot k v now :: rest /\
       Forall (fun e => (last_use (s_key victim) ops < last_use (s_key e) ops)%nat)
              rest) /\
  (forall now k limit,
     Forall (fun op => op_key op = k -> interval options < now - op_time op) ops ->
     fst (LRUCache.get (tokenCache_options options) now k
            (run_ops (tokenCache_options options) ops [])) = None /\
     find_slot k (remove_key k (run_ops (tokenCache_options options) ops [])) = None /\
     check options now limit k (run_ops (tokenCache_options options) ops []) =
     check options now limit k
       (remove_key k (run_ops (tokenCache_options options) ops []))).
Proof.
  intros Hcap.
  pose proof (run_ops_descending (tokenCache_options options) ops) as Hdesc.
  destruct (reachable_bounded (tokenCache_options options) Hcap
              (run_ops (tokenCache_options options) ops []))
    as [Hlen Hnd]; [now exists ops|].
  set (s := run_ops (tokenCache_options options) ops []) in *.
  split; [exact Hlen|]. split; [exact Hnd|]. split; [exact Hdesc|]. split.
  - intros now k v Hfull Hnew.
    destruct (exists_last (l := s)) as (rest & victim & Hs).
    { intros E. rewrite E in Hfull. simpl in Hfull. lia. }
    exists rest, victim. split; [exact Hs|]. split.
    + unfold LRUCache.set. rewrite Hnew. simpl. rewrite Hfull, Nat.leb_refl.
      unfold evict_lru. now rewrite Hs, removelast_last.
    + rewrite Hs, map_app in Hdesc. simpl in Hdesc.
      apply descending_last in Hdesc. now rewrite Forall_map in Hdesc.
  - intros now k limit Hidle.
    pose proof (idle_key_absent (tokenCache_options options) ops now k Hidle) as Hg.
    fold s in Hg.
    assert (Hg' : LRUCache.get (tokenCache_options options) now k (remove_key k s) =
                  (None, remove_key k s))
      by (apply get_miss, find_slot_remove_key_eq).
    repeat split.
    + now rewrite Hg.
    + apply find_slot_remove_key_eq.
    + unfold check, validTimestamps, tokenCount. now rewrite Hg, Hg'.
Qed.

Lemma cache_bounded_and_expiring_witness :
  let options := {| interval := 1000; uniqueTokenPerInterval := 2 |} in
  let ops := [OpSet 10000 "a" [10000]; OpSet 10001 "b" [10001];
              OpGet 10002 "a"; OpSet 10003 "c" [10003]] in
  (length (run_ops (tokenCache_options options) ops []) <= 2)%nat /\
  keys (run_ops (tokenCache_options options) ops []) = ["c"; "a"].
Proof.
  cbv zeta. split; [|reflexivity].
  apply (proj1 (cache_bounded_and_expiring
                  {| interval := 1000; uniqueTokenPerInterval := 2 |}
                  [OpSet 10000 "a" [10000]; OpSet 10001 "b" [10001];
                   OpGet 10002 "a"; OpSet 10003 "c" [10003]]
                  ltac:(simpl; lia))).
Defined.

(** ** Key derivation *)

Lemma js_or_non_empty a b : non_empty (js_or a b) = 
  match non_empty a with Some v => Some v | None => non_empty b end.
Proof.
  unfold js_or, truthy, non_empty. destruct a as [s|]; [|reflexivity].
  destruct (String.eqb_spec s ""); simpl; repeat case_decide; congruence.
Qed.

Lemma js_or_lit_non_empty a b :
  js_or_lit a b = default b (non_empty a).
Proof.
  unfold js_or_lit, non_empty. destruct a as [s|]; [|reflexivity].
  destruct (String.eqb_spec s ""); case_decide; simpl; congruence.
Qed.

(** C6 as stated fails: a forwarded-address header that is present with an
    empty value is skipped, and the real-address header is used. *)
Lemma empty_forwarded_header_is_skipped :
  let req := mkRequest {[ "x-forwarded-for" := ""; "x-real-ip" := "203.0.113.7" ]} in
  headers_get req "x-forwarded-for" = Some "" /\
  identify_if_present req None = "ip:" /\
  getRateLimitIdentifier req None = "ip:203.0.113.7".
Proof. cbv zeta. vm_compute. repeat split. Qed.

(** C6, amended: [getRateLimitIdentifier] returns ["user:" + userId] when
    [userId] is present and non-empty; otherwise ["ip:" + v] where [v] is
    the forwarded-address header if present and non-empty, else the
    real-address header if present and non-empty; otherwise
    ["ip:unknown"]. *)
Theorem getRateLimitIdentifier_non_empty req userId :
  getRateLimitIdentifier req userId = identify_if_non_empty req userId.
Proof.
  unfold getRateLimitIdentifier, identify_if_non_empty.
  rewrite js_or_lit_non_empty, js_or_non_empty.
  assert (Hip : "ip:" +:+
                default "unknown"
                  match non_empty (headers_get req "x-forwarded-for") with
                  | Some v => Some v
                  | None => non_empty (headers_get req "x-real-ip")
                  end =
                match non_empty (headers_get req "x-forwarded-for"),
                      non_empty (headers_get req "x-real-ip") with
                | Some v, _ => "ip:" +:+ v
                | None, Some v => "ip:" +:+ v
                | None, None => "ip:unknown"
                end).
  { destruct (non_empty (headers_get req "x-forwarded-for")); [reflexivity|].
    destruct (non_empty (headers_get req "x-real-ip")); reflexivity. }
  destruct userId as [u|]; simpl; [|exact Hip].
  destruct (String.eqb_spec u ""); case_decide; first [congruence | exact Hip].
Qed.

(** ** Content type *)

Lemma prefix_iff p : forall s,
  String.prefix p s = true <-> exists rest, s = p +:+ rest.
Proof.
  induction p as [|a p IH]; intros s.
  - split; [intros _; now exists s | intros _; now destruct s].
  - destruct s as [|b s]; simpl.
    + split; [discriminate | intros [rest H]; discriminate].
    + destruct (Ascii.ascii_dec a b) as [->|Hne].
      * rewrite IH. split; intros [rest H]; exists rest.
        -- now subst s.
        -- change (String b p +:+ rest) with (String b (p +:+ rest)) in H.
           congruence.
      * split; [discriminate | intros [rest H]].
        change (String a p +:+ rest) with (String a (p +:+ rest)) in H.
        congruence.
Qed.

(** C10 as stated fails: a content-type header that is present with an
    empty value is refused, although the empty value starts with the
    empty expected type. *)
Lemma empty_content_type_refused :
  let req := mkRequest {[ "content-type" := "" ]} in
  headers_get req "content-type" = Some "" /\
  starts_with_ci toLowerCase_ascii "" "" /\
  validateContentType toLowerCase_ascii req "" = false.
Proof.
  cbv zeta. repeat split. now exists "".
Qed.

(** C10, amended: [validateContentType] returns [false] when the request
    has no content-type header or an empty one, and otherwise returns
    [true] if and only if the header value, compared case-insensitively,
    starts with the expected type; text after the type, such as a charset
    parameter, is accepted. *)
Theorem validateContentType_iff toLowerCase req expectedType :
  validateContentType toLowerCase req expectedType = true <->
  exists contentType,
    headers_get req "content-type" = Some contentType /\
    contentType <> "" /\
    starts_with_ci toLowerCase contentType expectedType.
Proof.
  unfold validateContentType, starts_with_ci, startsWith, truthy.
  destruct (headers_get req "content-type") as [ct|]; simpl.
  - destruct (String.eqb_spec ct "") as [->|Hne]; simpl.
    + split; [discriminate | intros (c & Hc & Hn & _); congruence].
    + rewrite prefix_iff. split.
      * intros H. exists ct. auto.
      * intros (c & Hc & _ & H). injection Hc as ->. exact H.
  - split; [discriminate | intros (c & Hc & _); discriminate].
Qed.

Example json_with_charset_accepted :
  validateContentType_default toLowerCase_ascii
    (mkRequest {[ "content-type" := "Application/JSON; charset=utf-8" ]}) = true.
Proof. reflexivity. Qed.

Example form_body_refused :
  validateContentType_default toLowerCase_ascii
    (mkRequest {[ "content-type" := "application/x-www-form-urlencoded" ]}) = false.
Proof. reflexivity. Qed.

(** ** Further properties of [check] over histories *)

Section Quota.

Variable options : RateLimitOptions.

(** The filtered window depends on the cache only through the slot of
    the caller. *)
Lemma validTimestamps_by_slot now token s s' :
  find_slot token s' = find_slot token s ->
  validTimestamps options now token s' = validTimestamps options now token s.
Proof.
  intros H. unfold validTimestamps, tokenCount, LRUCache.get. rewrite H.
  destruct (find_slot token s) as [e|]; [destruct (is_stale _ now e)|]; reflexivity.
Qed.

Lemma validTimestamps_by_live now token s s' :
  live (tokenCache_options options) now token s' =
  live (tokenCache_options options) now token s ->
  validTimestamps options now token s' = validTimestamps options now token s.
Proof.
  intros H. unfold validTimestamps, tokenCount. now rewrite !get_fst_live, H.
Qed.

Lemma find_slot_get_same o now token s e :
  find_slot token (snd (LRUCache.get o now token s)) = Some e ->
  find_slot token s = Some e.
Proof.
  unfold LRUCache.get. destruct (find_slot token s) as [a|] eqn:Ha;
    [|simpl; now rewrite Ha].
  destruct (is_stale o now a); simpl.
  - now rewrite find_slot_remove_key_eq.
  - now rewrite (find_slot_key _ _ _ Ha), String.eqb_refl.
Qed.

(** Whatever the other callers do, the timestamps of [token] stay at or
    below a bound on the clock of its own calls. *)
Lemma own_stamps_le token T calls : forall s,
  0 <= T ->
  Forall (fun c => c_token c = token -> c_time c <= T) calls ->
  (forall e, find_slot token s = Some e -> Forall (fun ts => ts <= T) (s_value e)) ->
  forall e, find_slot token (snd (run options calls s)) = Some e ->
            Forall (fun ts => ts <= T) (s_value e).
Proof.
  induction calls as [|c calls IH]; intros s HT Hc Hs; simpl; [exact Hs|].
  apply Forall_cons in Hc as [Hc Hcs].
  destruct (check options (c_time c) (c_limit c) (c_token c) s) as [r s1] eqn:Hchk.
  assert (Hs1 : forall e, find_slot token s1 = Some e ->
                          Forall (fun ts => ts <= T) (s_value e)).
  { intros e He. replace s1 with (snd (check options (c_time c) (c_limit c) (c_token c) s)) in He
      by now rewrite Hchk.
    destruct (String.eqb_spec (c_token c) token) as [Heq|Hne].
    - specialize (Hc Heq). rewrite Heq in He. unfold check in He.
      destruct (_ <=? _) eqn:Hle; simpl in He.
      + apply find_slot_get_same in He. now apply Hs.
      + rewrite find_slot_set in He. injection He as <-. simpl.
        apply Forall_app. split; [|repeat constructor; exact Hc].
        apply Forall_forall. intros ts. rewrite list_elem_of_In.
        unfold validTimestamps. rewrite filter_In. intros [Hin _].
        apply In_tokenCount in Hin as [->|(a & Ha & Hin)]; [exact HT|].
        specialize (Hs a Ha). rewrite Forall_forall in Hs.
        apply Hs. now apply list_elem_of_In.
    - apply find_slot_check_other in He; [now apply Hs | exact Hne]. }
  specialize (IH s1 HT Hcs Hs1).
  destruct (run options calls s1) as [rs s2]. exact IH.
Qed.

End Quota.

(** X1: a caller whose own calls all lie more than [interval]
    milliseconds before the clock has its full quota back, whatever the
    other callers did meanwhile: the call is admitted with
    [remaining = limit - 1]. *)
Theorem idle_caller_has_full_quota options hist T t limit token :
  0 <= T ->
  Forall (fun c => c_token c = token -> c_time c <= T) hist ->
  interval options < t - T ->
  0 < limit ->
  fst (check options t limit token (snd (run options hist []))) =
  mkCheckResult true (limit - 1).
Proof.
  intros HT Hhist Hgap Hlim.
  assert (Hvalid : validTimestamps options t token (snd (run options hist [])) = []).
  { apply (validTimestamps_all_slid options T); [exact HT | exact Hgap |].
    apply own_stamps_le; [exact HT | exact Hhist | discriminate]. }
  rewrite check_allowed by (rewrite Hvalid; simpl; lia).
  rewrite Hvalid. reflexivity.
Qed.

Lemma idle_caller_has_full_quota_witness :
  fst (check apiLimiter_options 1700000061001 20 "user:u1"
         (snd (run apiLimiter_options
                 [mkCall 1700000000000 20 "user:u1";
                  mkCall 1700000001000 20 "user:u1";
                  mkCall 1700000050000 20 "user:u2"] []))) =
  mkCheckResult true 19.
Proof.
  apply (idle_caller_has_full_quota apiLimiter_options
           [mkCall 1700000000000 20 "user:u1";
            mkCall 1700000001000 20 "user:u1";
            mkCall 1700000050000 20 "user:u2"] 1700000001000).
  - lia.
  - repeat constructor; simpl; intros; (lia || discriminate).
  - simpl. lia.
  - lia.
Defined.

(** ** No caller is admitted beyond its limit *)

Section NoOverAdmission.

Variable options : RateLimitOptions.

Lemma filter_sublist (f : Z -> bool) (l1 l2 : list Z) :
  sublist l1 l2 -> sublist (List.filter f l1) (List.filter f l2).
Proof.
  induction 1 as [|x l1 l2 _ IH|x l1 l2 _ IH]; simpl.
  - constructor.
  - destruct (f x); [now constructor | exact IH].
  - destruct (f x); [now constructor | exact IH].
Qed.

Lemma filter_window_twice t now (l : list Z) :
  t <= now ->
  List.filter (fun a => now - a <? interval options)
    (List.filter (fun a => t - a <? interval options) l) =
  List.filter (fun a => now - a <? interval options) l.
Proof.
  intros Hle. induction l as [|x l IH]; simpl; [reflexivity|].
  destruct (Z.ltb_spec (t - x) (interval options)); simpl.
  - now rewrite IH.
  - destruct (Z.ltb_spec (now - x) (interval options)); [lia | exact IH].
Qed.

Lemma length_keys (s : Store) : length (keys s) = length s.
Proof. apply length_map. Qed.

(** A call whose key fits into the cache evicts nobody. *)
Lemma find_slot_check_other_room now limit k token s :
  k <> token ->
  (length (remove_key k s) < uniqueTokenPerInterval options)%nat ->
  find_slot token (snd (check options now limit k s)) = find_slot token s.
Proof.
  intros Hne Hroom. unfold check. destruct (_ <=? _); simpl.
  { now apply find_slot_get_other. }
  generalize (validTimestamps options now k s ++ [now]). intros v.
  unfold LRUCache.get.
  destruct (find_slot k s) as [a|] eqn:Ha.
  - destruct (is_stale _ now a); simpl; unfold LRUCache.set.
    + rewrite find_slot_remove_key_eq. simpl.
      destruct (Nat.leb_spec (uniqueTokenPerInterval options) (length (remove_key k s)));
        [lia|].
      simpl. destruct (String.eqb_spec k token); [congruence|].
      now apply find_slot_remove_key_ne.
    + simpl. rewrite (find_slot_key _ _ _ Ha), String.eqb_refl. simpl.
      destruct (String.eqb_spec k token); [congruence|].
      now rewrite !find_slot_remove_key_ne.
  - simpl. unfold LRUCache.set. rewrite Ha. simpl.
    rewrite (remove_key_absent _ _ Ha) in Hroom.
    destruct (Nat.leb_spec (uniqueTokenPerInterval options) (length s)); [lia|].
    simpl. destruct (String.eqb_spec k token); [congruence | reflexivity].
Qed.

Lemma In_keys_check now limit k s x :
  In x (keys (snd (check options now limit k s))) -> x = k \/ In x (keys s).
Proof.
  unfold keys. rewrite !in_map_iff. intros (e & <- & He).
  unfold check in He. destruct (_ <=? _); simpl in He.
  - apply In_get in He. eauto.
  - apply In_set in He as [->|He]; [now left|]. apply In_get in He. eauto.
Qed.

Lemma NoDup_keys_get o now k s :
  NoDup (keys s) -> NoDup (keys (snd (LRUCache.get o now k s))).
Proof.
  intros Hd. unfold LRUCache.get.
  destruct (find_slot k s) as [e|] eqn:Hf; [|exact Hd].
  destruct (is_stale o now e); simpl.
  - now apply NoDup_keys_remove_key.
  - eapply NoDup_keys_front; eauto using find_slot_key.
Qed.

Lemma NoDup_keys_set o now k v s :
  NoDup (keys s) -> NoDup (keys (LRUCache.set o now k v s)).
Proof.
  intros Hd. unfold LRUCache.set.
  destruct (find_slot k s) as [e|] eqn:Hf.
  - now apply (NoDup_keys_front k (mkSlot k v now)).
  - apply find_slot_None in Hf.
    destruct (_ <=? _)%nat.
    + change (NoDup (k :: keys (evict_lru s))). apply NoDup_cons.
      split; [|now apply NoDup_keys_evict_lru].
      rewrite list_elem_of_In. intros H. apply Hf.
      apply in_map_iff in H as (e & He & Hin). apply In_evict_lru in Hin.
      apply in_map_iff. eauto.
    + change (NoDup (k :: keys s)). apply NoDup_cons. split; [|exact Hd].
      now rewrite list_elem_of_In.
Qed.

Lemma NoDup_keys_check now limit k s :
  NoDup (keys s) -> NoDup (keys (snd (check options now limit k s))).
Proof.
  intros Hd. unfold check. destruct (_ <=? _); simpl.
  - now apply NoDup_keys_get.
  - now apply NoDup_keys_set, NoDup_keys_get.
Qed.

(** With no more callers than the cache has room for, there is room for
    each of them. *)
Lemma room_for_known_caller (U : list string) k s :
  NoDup (keys s) -> (forall x, In x (keys s) -> In x U) -> In k U ->
  (length (remove_dups U) <= uniqueTokenPerInterval options)%nat ->
  (length (remove_key k s) < uniqueTokenPerInterval options)%nat.
Proof.
  intros Hd Hin Hk Hlen.
  assert (Hnd : NoDup (keys (mkSlot k [] 0 :: remove_key k s)))
    by now apply (NoDup_keys_front k).
  apply NoDup_submseteq with (k := remove_dups U) in Hnd.
  - apply submseteq_length in Hnd. simpl in Hnd. rewrite length_keys in Hnd. lia.
  - intros x. rewrite elem_of_remove_dups, !list_elem_of_In. simpl.
    intros [<-|Hx]; [exact Hk|]. apply keys_remove_key_incl in Hx. apply Hin, Hx.
Qed.

(** One call keeps the admitted timestamps of [token] that are still in
    any later window inside its filtered window. *)
Lemma admitted_step token t l k s A bound :
  bound <= t ->
  Forall (fun a => a <= bound) A ->
  (forall now, bound <= now ->
     sublist (List.filter (fun a => now - a <? interval options) A)
             (validTimestamps options now token s)) ->
  (k <> token -> (length (remove_key k s) < uniqueTokenPerInterval options)%nat) ->
  Forall (fun a => a <= t)
    (if success (fst (check options t l k s)) && String.eqb k token
     then A ++ [t] else A) /\
  forall now, t <= now ->
    sublist (List.filter (fun a => now - a <? interval options)
               (if success (fst (check options t l k s)) && String.eqb k token
                then A ++ [t] else A))
            (validTimestamps options now token (snd (check options t l k s))).
Proof.
  intros Hbt HA HP Hroom.
  assert (HA' : Forall (fun a => a <= t) A)
    by (eapply Forall_impl; [exact HA | simpl; intros; lia]).
  destruct (String.eqb_spec k token) as [->|Hne].
  - destruct (success (fst (check options t l token s))) eqn:Hs; simpl.
    + split; [apply Forall_app; split; [exact HA' | repeat constructor; lia]|].
      intros now Hnow.
      pose proof (find_slot_after_allowed options t l token s Hs) as Hf.
      destruct (Z.le_gt_cases (now - t) (interval options)) as [Hlive|Hstale].
      * rewrite (validTimestamps_hit options now token _ _ Hf) by exact Hlive.
        simpl. rewrite !List.filter_app. apply sublist_app; [|reflexivity].
        rewrite <- (filter_window_twice t now A) by exact Hnow.
        apply filter_sublist, HP, Hbt.
      * rewrite filter_none_in_window; [apply sublist_nil_l|].
        apply Forall_app. split; [|repeat constructor; unfold in_window; lia].
        eapply Forall_impl; [exact HA'|]. unfold in_window. simpl. intros; lia.
    + split; [exact HA'|]. intros now Hnow.
      assert (Hden : snd (check options t l token s) =
                     snd (LRUCache.get (tokenCache_options options) t token s)).
      { unfold check in *. destruct (_ <=? _); [reflexivity | discriminate]. }
      rewrite Hden, (validTimestamps_by_live options now token s)
        by (apply live_get; exact Hnow).
      apply HP. lia.
  - rewrite andb_false_r. split; [exact HA'|]. intros now Hnow.
    rewrite (validTimestamps_by_slot options now token s)
      by (apply find_slot_check_other_room; auto).
    apply HP. lia.
Qed.

Lemma admitted_in_window token (U : list string) :
  (length (remove_dups U) <= uniqueTokenPerInterval options)%nat ->
  forall calls s A bound,
  chronological bound calls = true ->
  Forall (fun a => a <= bound) A ->
  (forall now, bound <= now ->
     sublist (List.filter (fun a => now - a <? interval options) A)
             (validTimestamps options now token s)) ->
  NoDup (keys s) -> (forall x, In x (keys s) -> In x U) ->
  Forall (fun c => In (c_token c) U) calls ->
  forall now, bound <= now -> Forall (fun c => c_time c <= now) calls ->
    sublist (List.filter (fun a => now - a <? interval options)
               (A ++ admitted options token calls s))
            (validTimestamps options now token (snd (run options calls s))).
Proof.
  intros HU. induction calls as [|c calls IH];
    intros s A bound Hchron HA HP Hd Hin HcU now Hnow Hle.
  - simpl. rewrite app_nil_r. now apply HP.
  - simpl in Hchron. apply andb_true_iff in Hchron as [Hb Hchron].
    apply Z.leb_le in Hb.
    apply Forall_cons in HcU as [HcU HcsU]. apply Forall_cons in Hle as [Hle Hles].
    destruct (admitted_step token (c_time c) (c_limit c) (c_token c) s A bound Hb HA HP)
      as [HA1 HP1].
    { intros _. now apply (room_for_known_caller U). }
    pose proof (NoDup_keys_check (c_time c) (c_limit c) (c_token c) s Hd) as Hd1.
    assert (Hin1 : forall x,
               In x (keys (snd (check options (c_time c) (c_limit c) (c_token c) s))) ->
               In x U).
    { intros x Hx. apply In_keys_check in Hx as [->|Hx]; auto. }
    simpl.
    destruct (check options (c_time c) (c_limit c) (c_token c) s) as [r s1].
    simpl in *.
    specialize (IH s1 _ (c_time c) Hchron HA1 HP1 Hd1 Hin1 HcsU now Hle Hles).
    destruct (run options calls s1) as [rs s2]. simpl in *.
    destruct (success r && String.eqb (c_token c) token);
      [rewrite <- app_assoc in IH|]; exact IH.
Qed.

Lemma chronological_app since calls1 calls2 :
  chronological since (calls1 ++ calls2) = true -> chronological since calls1 = true.
Proof.
  revert since. induction calls1 as [|c calls1 IH]; intros since; simpl; [reflexivity|].
  rewrite !andb_true_iff. intros [H1 H2]. split; [exact H1 | eapply IH, H2].
Qed.

End NoOverAdmission.

(** X2: on a clock that never runs backwards, and as long as no more
    callers have appeared than the cache has room for, an admitted call
    with limit [L] has fewer than [L] admitted calls of the same caller
    inside the window that ends at it: no caller gets more than [L] calls
    into any one window. *)
Theorem never_over_admits options since pre c :
  chronological since (pre ++ [c]) = true ->
  (length (callers pre) <= uniqueTokenPerInterval options)%nat ->
  success (fst (check options (c_time c) (c_limit c) (c_token c)
                  (snd (run options pre [])))) = true ->
  Z.of_nat (length (List.filter (fun a => c_time c - a <? interval options)
                      (admitted options (c_token c) pre []))) < c_limit c.
Proof.
  intros Hchron Hroom Hok. apply success_iff in Hok.
  pose proof (chronological_before _ _ _ _ Hchron) as (Hs & Hle & _).
  apply Forall_app in Hle as [Hle _].
  pose proof (admitted_in_window options (c_token c) (map c_token pre) Hroom
                pre [] [] since (chronological_app _ _ _ Hchron)
                (List.Forall_nil _)) as H.
  assert (H0 : forall now, since <= now ->
            sublist (List.filter (fun a => now - a <? interval options) [])
                    (validTimestamps options now (c_token c) []))
    by (intros; apply sublist_nil_l).
  assert (Hd : NoDup (keys [])) by constructor.
  assert (Hin : forall x, In x (keys []) -> In x (map c_token pre))
    by (intros x []).
  specialize (H H0 Hd Hin).
  assert (HU : Forall (fun c0 => In (c_token c0) (map c_token pre)) pre).
  { apply Forall_forall. intros x Hx. apply in_map. now apply list_elem_of_In. }
  specialize (H HU (c_time c) Hs Hle). simpl in H.
  apply sublist_length in H. lia.
Qed.

Lemma never_over_admits_witness :
  let options := {| interval := 1000; uniqueTokenPerInterval := 2 |} in
  let pre := [mkCall 10000 2 "a"; mkCall 10100 2 "b"; mkCall 10200 2 "a";
              mkCall 10300 2 "a"] in
  Z.of_nat (length (List.filter (fun a => 11050 - a <? 1000)
                      (admitted options "a" pre []))) < 2.
Proof.
  cbv zeta.
  apply (never_over_admits {| interval := 1000; uniqueTokenPerInterval := 2 |} 0
           [mkCall 10000 2 "a"; mkCall 10100 2 "b"; mkCall 10200 2 "a";
            mkCall 10300 2 "a"] (mkCall 11050 2 "a")).
  - reflexivity.
  - vm_compute. lia.
  - reflexivity.
Defined.

(** With room for one caller only, the arrival of a second one evicts the
    first and hands it a fresh quota: the bound on the number of callers
    is needed. *)
Example eviction_resets_quota :
  fst (run {| interval := 1000; uniqueTokenPerInterval := 1 |}
         [mkCall 10000 1 "a"; mkCall 10001 1 "b"; mkCall 10002 1 "a"] []) =
  [mkCheckResult true 0; mkCheckResult true 0; mkCheckResult true 0].
Proof. reflexivity. Qed.

(** X3: a call of another caller that fits into the cache leaves the
    window of a caller untouched, and with it every verdict the caller
    would get next, at any time and for any limit. *)
Theorem other_caller_leaves_window options now limit k token s :
  k <> token ->
  (length (remove_key k s) < uniqueTokenPerInterval options)%nat ->
  find_slot token (snd (check options now limit k s)) = find_slot token s /\
  forall now' limit',
    fst (check options now' limit' token (snd (check options now limit k s))) =
    fst (check options now' limit' token s).
Proof.
  intros Hne Hroom.
  pose proof (find_slot_check_other_room options now limit k token s Hne Hroom) as Hf.
  split; [exact Hf|]. intros now' limit'.
  apply verdict_by_live. unfold live. now rewrite Hf.
Qed.

Lemma other_caller_leaves_window_witness :
  let s := [mkSlot "user:a" [1700000000000] 1700000000000] in
  fst (check apiLimiter_options 1700000002000 1 "user:a"
         (snd (check apiLimiter_options 1700000001000 20 "user:b" s))) =
  fst (check apiLimiter_options 1700000002000 1 "user:a" s).
Proof.
  cbv zeta.
  apply (proj2 (other_caller_leaves_window apiLimiter_options 1700000001000 20
                  "user:b" "user:a" [mkSlot "user:a" [1700000000000] 1700000000000]
                  ltac:(discriminate) ltac:(vm_compute; lia))).
Defined.

(** ** What the cache holds *)

Section Windows.

Variable options : RateLimitOptions.

Lemma check_keeps_bound now limit k s :
  (0 < uniqueTokenPerInterval options)%nat ->
  (length s <= uniqueTokenPerInterval options)%nat /\ NoDup (keys s) ->
  (length (snd (check options now limit k s)) <= uniqueTokenPerInterval options)%nat /\
  NoDup (keys (snd (check options now limit k s))).
Proof.
  intros Hcap Hs. unfold check. destruct (_ <=? _); simpl.
  - now apply (get_keeps_bound (tokenCache_options options)).
  - apply (set_keeps_bound (tokenCache_options options)); [exact Hcap|].
    now apply (get_keeps_bound (tokenCache_options options)).
Qed.

Lemma run_keeps_bound calls : forall s,
  (0 < uniqueTokenPerInterval options)%nat ->
  (length s <= uniqueTokenPerInterval options)%nat /\ NoDup (keys s) ->
  (length (snd (run options calls s)) <= uniqueTokenPerInterval options)%nat /\
  NoDup (keys (snd (run options calls s))).
Proof.
  induction calls as [|c calls IH]; intros s Hcap Hs; simpl; [exact Hs|].
  pose proof (check_keeps_bound (c_time c) (c_limit c) (c_token c) s Hcap Hs) as H1.
  destruct (check options (c_time c) (c_limit c) (c_token c) s) as [r s1].
  specialize (IH s1 Hcap H1). destruct (run options calls s1) as [rs s2]. exact IH.
Qed.

(** A property of slots that every newly written slot has and that the
    cache operations never break holds of all slots after any call. *)
Lemma check_slots (P : Slot -> Prop) now limit k s :
  (success (fst (check options now limit k s)) = true ->
   P (mkSlot k (validTimestamps options now k s ++ [now]) now)) ->
  Forall P s -> Forall P (snd (check options now limit k s)).
Proof.
  intros Hnew Hs. rewrite Forall_forall in Hs. setoid_rewrite list_elem_of_In in Hs.
  apply Forall_forall. intros e. rewrite list_elem_of_In.
  unfold check in *. destruct (_ <=? _); simpl in *.
  - intros H. apply In_get in H. auto.
  - intros H. apply In_set in H as [->|H]; [auto | apply In_get in H; auto].
Qed.

Lemma window_sizes L calls : forall s,
  Forall (fun c => c_limit c <= L) calls ->
  Forall (fun e => 1 <= Z.of_nat (length (s_value e)) <= L) s ->
  Forall (fun e => 1 <= Z.of_nat (length (s_value e)) <= L) (snd (run options calls s)).
Proof.
  induction calls as [|c calls IH]; intros s Hc Hs; simpl; [exact Hs|].
  apply Forall_cons in Hc as [Hc Hcs].
  assert (H1 : Forall (fun e => 1 <= Z.of_nat (length (s_value e)) <= L)
                 (snd (check options (c_time c) (c_limit c) (c_token c) s))).
  { apply check_slots; [|exact Hs]. intros Hok. apply success_iff in Hok.
    simpl. rewrite length_app. simpl. lia. }
  destruct (check options (c_time c) (c_limit c) (c_token c) s) as [r s1].
  specialize (IH s1 Hcs H1). destruct (run options calls s1) as [rs s2]. exact IH.
Qed.

Lemma stored_timestamps_le L (s : Store) :
  Forall (fun e => 1 <= Z.of_nat (length (s_value e)) <= L) s ->
  Z.of_nat (stored_timestamps s) <= Z.of_nat (length s) * L.
Proof.
  unfold stored_timestamps. induction 1 as [|e s He _ IH]; simpl; [lia|].
  rewrite length_app. lia.
Qed.

Lemma StronglySorted_filter (f : Z -> bool) (l : list Z) :
  StronglySorted Z.le l -> StronglySorted Z.le (List.filter f l).
Proof.
  induction 1 as [|x l _ IH Hx]; simpl; [constructor|].
  destruct (f x); [|exact IH]. constructor; [exact IH|].
  rewrite List.Forall_forall in *. intros y Hy. apply filter_In in Hy. apply Hx, Hy.
Qed.

Lemma StronglySorted_snoc (l : list Z) x :
  StronglySorted Z.le l -> Forall (fun y => y <= x) l ->
  StronglySorted Z.le (l ++ [x]).
Proof.
  induction 1 as [|y l _ IH Hy]; intros Hle; simpl.
  - repeat constructor.
  - apply Forall_cons in Hle as [Hyx Hle]. constructor; [auto|].
    apply List.Forall_app. split; [exact Hy | repeat constructor; exact Hyx].
Qed.

Lemma well_shaped_run calls : forall s T,
  0 < interval options ->
  chronological T calls = true -> 0 <= T ->
  Forall (fun e => well_shaped options e /\ s_written e <= T) s ->
  Forall (well_shaped options) (snd (run options calls s)).
Proof.
  induction calls as [|c calls IH]; intros s T Hint Hchron HT Hs; simpl.
  { eapply Forall_impl; [exact Hs | simpl; tauto]. }
  simpl in Hchron. apply andb_true_iff in Hchron as [Hb Hchron]. apply Z.leb_le in Hb.
  assert (H1 : Forall (fun e => well_shaped options e /\ s_written e <= c_time c)
                 (snd (check options (c_time c) (c_limit c) (c_token c) s))).
  { apply check_slots.
    - intros _. split; [|simpl; lia].
      assert (Hv : Forall (fun ts => 0 <= ts <= c_time c /\ c_time c - ts < interval options)
                     (validTimestamps options (c_time c) (c_token c) s)).
      { apply Forall_forall. intros ts. rewrite list_elem_of_In.
        unfold validTimestamps. rewrite filter_In, Z.ltb_lt. intros [Hin Hw].
        split; [|exact Hw].
        apply In_tokenCount in Hin as [->|(a & Ha & Hin)]; [lia|].
        apply find_slot_In in Ha. rewrite Forall_forall in Hs.
        apply list_elem_of_In, Hs in Ha as [(_ & _ & Hall) Hw'].
        rewrite Forall_forall in Hall. apply list_elem_of_In, Hall in Hin. lia. }
      repeat split; simpl.
      + apply StronglySorted_snoc.
        * unfold validTimestamps. apply StronglySorted_filter.
          unfold tokenCount, LRUCache.get.
          destruct (find_slot (c_token c) s) as [a|] eqn:Ha;
            [destruct (is_stale _ _ a)|]; simpl; try (repeat constructor).
          apply find_slot_In in Ha. rewrite Forall_forall in Hs.
          apply list_elem_of_In, Hs in Ha as [(Hsorted & _) _]. exact Hsorted.
        * eapply Forall_impl; [exact Hv|]. simpl. intros; lia.
      + apply last_snoc.
      + apply Forall_app. split; [exact Hv | repeat constructor; lia].
    - eapply Forall_impl; [exact Hs|]. simpl. intros e [He Hw]. split; [exact He | lia]. }
  destruct (check options (c_time c) (c_limit c) (c_token c) s) as [r s1].
  assert (HT' : 0 <= c_time c) by lia.
  specialize (IH s1 (c_time c) Hint Hchron HT' H1).
  destruct (run options calls s1) as [rs s2]. exact IH.
Qed.

End Windows.

(** X4: the memory the limiter can take is bounded.  After any history of
    calls with limits up to [L], served from the empty cache, the cache
    holds at most [uniqueTokenPerInterval] windows, each of at least one
    and at most [L] timestamps. *)
Theorem cache_memory_bound options calls L :
  (0 < uniqueTokenPerInterval options)%nat ->
  0 <= L ->
  Forall (fun c => c_limit c <= L) calls ->
  (length (snd (run options calls [])) <= uniqueTokenPerInterval options)%nat /\
  Forall (fun e => 1 <= Z.of_nat (length (s_value e)) <= L)
         (snd (run options calls [])) /\
  Z.of_nat (stored_timestamps (snd (run options calls []))) <=
    Z.of_nat (uniqueTokenPerInterval options) * L.
Proof.
  intros Hcap HL Hc.
  destruct (run_keeps_bound options calls [] Hcap) as [Hlen _];
    [split; [simpl; lia | constructor]|].
  pose proof (window_sizes options L calls [] Hc (List.Forall_nil _)) as Hsz.
  repeat split; [exact Hlen | exact Hsz |].
  pose proof (stored_timestamps_le L _ Hsz). nia.
Qed.

Lemma cache_memory_bound_witness :
  let options := {| interval := 1000; uniqueTokenPerInterval := 2 |} in
  let calls := [mkCall 10000 3 "a"; mkCall 10001 2 "b"; mkCall 10002 3 "a";
                mkCall 10003 1 "c"] in
  Z.of_nat (stored_timestamps (snd (run options calls []))) <= 2 * 3.
Proof.
  cbv zeta.
  apply (cache_memory_bound {| interval := 1000; uniqueTokenPerInterval := 2 |}
           [mkCall 10000 3 "a"; mkCall 10001 2 "b"; mkCall 10002 3 "a";
            mkCall 10003 1 "c"] 3).
  - simpl. lia.
  - lia.
  - repeat constructor; simpl; lia.
Defined.

(** X5: on a clock of milliseconds since the epoch that never runs
    backwards, and with a positive [interval], every window in the cache
    is in clock order, ends with the time it was written at and holds
    only timestamps less than [interval] older than that. *)
Theorem windows_well_shaped options calls :
  0 < interval options ->
  chronological 0 calls = true ->
  Forall (well_shaped options) (snd (run options calls [])).
Proof.
  intros Hint Hchron.
  apply (well_shaped_run options calls [] 0 Hint Hchron); [lia | constructor].
Qed.

Lemma windows_well_shaped_witness :
  Forall (well_shaped apiLimiter_options)
    (snd (run apiLimiter_options
            [mkCall 30000 20 "user:a"; mkCall 40000 20 "user:a";
             mkCall 1700000000000 20 "user:b"] [])).
Proof.
  apply (windows_well_shaped apiLimiter_options
           [mkCall 30000 20 "user:a"; mkCall 40000 20 "user:a";
            mkCall 1700000000000 20 "user:b"]).
  - simpl. lia.
  - reflexivity.
Defined.

(** ** More on the request helpers *)

Lemma user_key_not_ip_key a b : "user:" +:+ a <> "ip:" +:+ b.
Proof. cbv [String.append]. discriminate. Qed.

Lemma user_key_inj a b : "user:" +:+ a = "user:" +:+ b -> a = b.
Proof. cbv [String.append]. congruence. Qed.

Lemma identifier_of_user req u :
  u <> "" -> getRateLimitIdentifier req (Some u) = "user:" +:+ u.
Proof.
  intros Hu. unfold getRateLimitIdentifier.
  destruct (String.eqb_spec u ""); [contradiction | reflexivity].
Qed.

Lemma identifier_of_anonymous req userId :
  truthy userId = false ->
  exists ip, getRateLimitIdentifier req userId = "ip:" +:+ ip.
Proof.
  unfold getRateLimitIdentifier, truthy. destruct userId as [u|]; [|eauto].
  destruct (String.eqb u ""); [eauto | discriminate].
Qed.

(** X6: the key of a signed-in caller is ["user:" + userId] whatever the
    headers say; two signed-in callers share a key only if they are the
    same user, and no signed-in caller shares a key with an anonymous
    one, whatever address headers the anonymous request carries. *)
Theorem identifier_separates_callers req req' u :
  u <> "" ->
  getRateLimitIdentifier req (Some u) = "user:" +:+ u /\
  (forall u', u' <> "" ->
     getRateLimitIdentifier req (Some u) = getRateLimitIdentifier req' (Some u') ->
     u = u') /\
  (forall anonymous, truthy anonymous = false ->
     getRateLimitIdentifier req (Some u) <> getRateLimitIdentifier req' anonymous).
Proof.
  intros Hu. rewrite identifier_of_user by exact Hu. repeat split.
  - intros u' Hu'. rewrite identifier_of_user by exact Hu'. apply user_key_inj.
  - intros anonymous Ha.
    destruct (identifier_of_anonymous req' anonymous Ha) as [ip ->].
    apply user_key_not_ip_key.
Qed.

Lemma identifier_separates_callers_witness :
  getRateLimitIdentifier (mkRequest {[ "x-forwarded-for" := "user:u1" ]}) (Some "u1") <>
  getRateLimitIdentifier (mkRequest {[ "x-forwarded-for" := "user:u1" ]}) None.
Proof.
  apply (proj2 (proj2 (identifier_separates_callers
                         (mkRequest {[ "x-forwarded-for" := "user:u1" ]})
                         (mkRequest {[ "x-forwarded-for" := "user:u1" ]})
                         "u1" ltac:(discriminate)))).
  reflexivity.
Defined.

(** ** The route handlers *)

Section HandlerFacts.

Context {number : Type} (number_truthy : number -> bool).
Context {RecordTest : Type} (toLowerCase : string -> string).
Variable db : @Prisma number RecordTest.

Ltac handler_unfold :=
  unfold serve, GET_records, POST_records, GET_record, PUT_record,
    DELETE_record, try_catch, bind, await, signed_in, apiLimiter_check,
    query, destructure, throw, ret, rate_limit_exceeded, content_type_ok in *.

Ltac hsimpl :=
  cbn -[getRateLimitIdentifier check validateContentType pretty String.eqb] in *.

Ltac handler_cases :=
  repeat (cbn [fst snd negb w_cache w_queries success remaining] in *;
          match goal with
          | |- context [match ?x with _ => _ end] =>
              lazymatch x with
              | context [match _ with _ => _ end] => fail
              | _ => destruct x eqn:?
              end
          end).

Lemma truthy_Some_false u : truthy (Some u) = false -> u = "".
Proof.
  unfold truthy. destruct (String.eqb_spec u ""); [auto | discriminate].
Qed.

Lemma signed_in_eqb u : u <> "" -> String.eqb u "" = false.
Proof. intros Hu. now destruct (String.eqb_spec u ""). Qed.

(** X7: a request without a signed-in user is answered with the error
    401 by every route, before the limiter or the database is touched. *)
Theorem unauthenticated_is_turned_away userId req call now w :
  truthy userId = false ->
  serve number_truthy toLowerCase db (Resolved userId) req call now w =
  (Caught (ApiError 401 "Unauthorized"), w).
Proof.
  intros Hu. destruct userId as [u|]; [apply truthy_Some_false in Hu; subst u|];
    destruct call; reflexivity.
Qed.

(** X8: a signed-in request to a route that reads a body is answered
    with the error 415 when its content type is not accepted, and this
    does not count against the quota of the caller: the cache of the
    limiter and the database are left as they were. *)
Theorem wrong_content_type_costs_nothing u req call now w :
  u <> "" ->
  content_type_ok toLowerCase req call = false ->
  serve number_truthy toLowerCase db (Resolved (Some u)) req call now w =
  (Caught (ApiError 415 "Content-Type must be application/json"), w).
Proof.
  intros Hu Hct. apply signed_in_eqb in Hu.
  destruct call; try discriminate; handler_unfold; hsimpl; rewrite Hu, Hct;
    reflexivity.
Qed.

Lemma serve_charged u req call now w :
  u <> "" ->
  content_type_ok toLowerCase req call = true ->
  w_cache (snd (serve number_truthy toLowerCase db (Resolved (Some u)) req call now w)) =
    snd (check apiLimiter_options now 20 ("user:" +:+ u) (w_cache w)) /\
  (success (fst (check apiLimiter_options now 20 ("user:" +:+ u) (w_cache w))) = false ->
   serve number_truthy toLowerCase db (Resolved (Some u)) req call now w =
   (Caught (ApiError 429 "Rate limit exceeded. Please try again later."),
    mkWorld (snd (check apiLimiter_options now 20 ("user:" +:+ u) (w_cache w)))
            (w_queries w))) /\
  (success (fst (check apiLimiter_options now 20 ("user:" +:+ u) (w_cache w))) = true ->
   forall message,
     fst (serve number_truthy toLowerCase db (Resolved (Some u)) req call now w) <> Caught (ApiError 429 message)).
Proof.
  intros Hu Hct. pose proof (signed_in_eqb u Hu) as Hu'.
  destruct call; handler_unfold; hsimpl; rewrite Hu'; try rewrite Hct; hsimpl;
    rewrite (identifier_of_user req u Hu);
    destruct (check apiLimiter_options now 20 ("user:" +:+ u) (w_cache w)) as [r c];
    destruct r as [[|] rem]; hsimpl;
    (split; [|split]; [| intros H; try discriminate H | intros H; try discriminate H]);
    try reflexivity; try (intros message; handler_cases; hsimpl; discriminate);
    handler_cases; reflexivity.
Qed.

(** X9: every signed-in request that passes the content-type test costs
    exactly one [check(20, "user:" + userId)], whatever its headers and
    whatever happens next; it is answered with the error 429 exactly when
    that check refuses it, and then the database is not called. *)
Theorem limiter_charged_once_per_request u req call now w :
  u <> "" ->
  content_type_ok toLowerCase req call = true ->
  w_cache (snd (serve number_truthy toLowerCase db (Resolved (Some u)) req call now w)) =
    snd (check apiLimiter_options now 20 ("user:" +:+ u) (w_cache w)) /\
  (success (fst (check apiLimiter_options now 20 ("user:" +:+ u) (w_cache w))) = false ->
   serve number_truthy toLowerCase db (Resolved (Some u)) req call now w =
   (Caught (ApiError 429 "Rate limit exceeded. Please try again later."),
    mkWorld (snd (check apiLimiter_options now 20 ("user:" +:+ u) (w_cache w)))
            (w_queries w))) /\
  (success (fst (check apiLimiter_options now 20 ("user:" +:+ u) (w_cache w))) = true ->
   forall message,
     fst (serve number_truthy toLowerCase db (Resolved (Some u)) req call now w) <> Caught (ApiError 429 message)).
Proof. apply serve_charged. Qed.

Lemma remaining_of_twenty now token s :
  success (fst (check apiLimiter_options now 20 token s)) = true ->
  0 <= remaining (fst (check apiLimiter_options now 20 token s)) <= 19.
Proof.
  intros H. rewrite remaining_allowed by exact H. apply success_iff in H. lia.
Qed.

(** X10: a response is only ever returned to a signed-in caller whose
    call the limiter admitted; it has status 200 (201 after a creation),
    and its header [X-RateLimit-Remaining] is the decimal text of the
    [remaining] of that check, a number from 0 to 19. *)
Theorem response_reports_remaining session req call now w response :
  fst (serve number_truthy toLowerCase db session req call now w) = Returned response ->
  exists u,
    session = Resolved (Some u) /\ u <> "" /\
    content_type_ok toLowerCase req call = true /\
    success (fst (check apiLimiter_options now 20 ("user:" +:+ u) (w_cache w))) = true /\
    r_remaining response =
      pretty (remaining (fst (check apiLimiter_options now 20 ("user:" +:+ u) (w_cache w)))) /\
    0 <= remaining (fst (check apiLimiter_options now 20 ("user:" +:+ u) (w_cache w))) <= 19 /\
    r_status response = match call with CreateRecord _ => 201 | _ => 200 end.
Proof.
  intros H.
  destruct session as [|[u|]]; try (destruct call; discriminate H).
  destruct (String.eqb_spec u "") as [->|Hu]; [destruct call; discriminate H|].
  exists u. split; [reflexivity|]. split; [exact Hu|].
  pose proof (signed_in_eqb u Hu) as Hu'.
  pose proof (remaining_of_twenty now ("user:" +:+ u) (w_cache w)) as Hrem.
  destruct (content_type_ok toLowerCase req call) eqn:Hct.
  - split; [reflexivity|].
    destruct call; handler_unfold; hsimpl; rewrite Hu' in H; try rewrite Hct in H;
      hsimpl; rewrite (identifier_of_user req u Hu) in H;
      destruct (check apiLimiter_options now 20 ("user:" +:+ u) (w_cache w)) as [r c];
      destruct r as [[|] rem]; hsimpl; try discriminate H;
      (split; [reflexivity|]); (split; [|split; [now apply Hrem|]]);
      revert H; handler_cases; intros H; try discriminate H;
      injection H as <-; reflexivity.
  - destruct call; try discriminate Hct; handler_unfold; hsimpl;
      rewrite Hu', Hct in H; discriminate H.
Qed.

(** X11: every database call of a handler is made for a signed-in caller
    and carries the caller's own identifier; a record is updated or
    deleted only after the database has found it under that identifier,
    and at most that one update or deletion is made. *)
Theorem database_calls_are_scoped session req call now w :
  exists qs,
    w_queries (snd (serve number_truthy toLowerCase db session req call now w)) = w_queries w ++ qs /\
    (qs = [] \/
     exists u, session = Resolved (Some u) /\ u <> "" /\
       match call with
       | ListRecords => qs = [FindMany u]
       | CreateRecord _ => exists data, qs = [Create data] /\ cd_userId data = u
       | ShowRecord id => qs = [FindFirst id u]
       | UpdateRecord id _ =>
           qs = [FindFirst id u] \/
           exists data found,
             qs = [FindFirst id u; Update id data] /\
             findFirst db id u = Resolved (Some found)
       | DeleteRecord id =>
           qs = [FindFirst id u] \/
           exists found,
             qs = [FindFirst id u; Delete id] /\
             findFirst db id u = Resolved (Some found)
       end).
Proof.
  destruct session as [|[u|]];
    try (exists []; split; [destruct call; hsimpl; now rewrite app_nil_r | now left]).
  destruct (String.eqb_spec u "") as [->|Hu];
    [exists []; split; [destruct call; hsimpl; now rewrite app_nil_r | now left]|].
  pose proof (signed_in_eqb u Hu) as Hu'.
  destruct call; handler_unfold; hsimpl; rewrite Hu'; hsimpl; handler_cases; hsimpl;
    try (exists []; split; [now rewrite app_nil_r | now left]);
    (eexists; split; [rewrite <- ?app_assoc; reflexivity|]);
    right; exists u; (split; [reflexivity|]); (split; [exact Hu|]);
    eauto 6.
Qed.

Lemma json_truthy_default (o : option (@JsonValue number)) :
  json_truthy number_truthy o = true ->
  json_truthy number_truthy (Some (default JNull o)) = true.
Proof. destruct o; [auto | discriminate]. Qed.

Lemma json_truthy_value (o : option (@JsonValue number)) :
  json_truthy number_truthy o = true -> o = Some (default JNull o).
Proof. destruct o; [auto | discriminate]. Qed.

(** X12: a record is created only from a body whose [title] is a
    non-empty string; it is created for the signed-in caller, with that
    title, with the status of the body when that is truthy and ["active"]
    otherwise, and with the description of the body when that is truthy
    and [null] otherwise. *)
Theorem created_record_is_well_formed u req json now w data :
  w_queries (snd (serve number_truthy toLowerCase db (Resolved (Some u)) req (CreateRecord json) now w)) =
    w_queries w ++ [Create data] ->
  exists body,
    json = Resolved body /\
    property "title" body = Some (JString (cd_title data)) /\
    cd_title data <> "" /\
    cd_userId data = u /\
    json_truthy number_truthy (Some (cd_status data)) = true /\
    (json_truthy number_truthy (property "status" body) = false ->
     cd_status data = JString "active") /\
    (cd_description data = JNull \/
     json_truthy number_truthy (Some (cd_description data)) = true) /\
    (json_truthy number_truthy (property "status" body) = true ->
     property "status" body = Some (cd_status data)) /\
    (json_truthy number_truthy (property "description" body) = true ->
     property "description" body = Some (cd_description data)) /\
    (json_truthy number_truthy (property "description" body) = false ->
     cd_description data = JNull).
Proof.
  handler_unfold. intros H. revert H.
  cbn -[getRateLimitIdentifier check validateContentType pretty String.eqb
        property json_truthy default].
  handler_cases; intros H;
    try (apply (f_equal (@length _)) in H; rewrite ?length_app in H;
         simpl in H; lia);
    try match goal with
      | Hp : property "title" _ = Some _ |- _ => discriminate Hp
      end.
  all: cbn [snd w_queries] in H; apply app_inv_head in H; injection H as <-;
    cbn [cd_title cd_description cd_status cd_userId];
    eexists; (split; [reflexivity|]);
    repeat match goal with
      | H : String.eqb ?a ?b = false |- _ => apply String.eqb_neq in H
      end.
  all: (split; [eassumption|]); (split; [assumption|]); (split; [reflexivity|]).
  all: (split; [first [now apply json_truthy_default | reflexivity]|]).
  all: (split; [intros Hs; first [reflexivity | congruence]|]).
  all: (split; [first [now left | right; now apply json_truthy_default]|]).
  all: (split; [intros Hs; first [now apply json_truthy_value | congruence]|]).
  all: (split; [intros Hs; first [now apply json_truthy_value | congruence]|]).
  all: intros Hs; first [reflexivity | congruence].
Qed.

(** X17: when the database finds no record with the requested id under
    the identifier of the caller, reading, updating and deleting it are
    all answered with the error 404, and the only database call made is
    that lookup. *)
Theorem foreign_record_is_not_touched u req call id now w :
  u <> "" ->
  content_type_ok toLowerCase req call = true ->
  success (fst (check apiLimiter_options now 20 ("user:" +:+ u) (w_cache w))) = true ->
  match call with
  | ShowRecord i => i = id
  | DeleteRecord i => i = id
  | UpdateRecord i (Resolved body) => i = id /\ body <> JNull
  | _ => False
  end ->
  findFirst db id u = Resolved None ->
  exists message,
    serve number_truthy toLowerCase db (Resolved (Some u)) req call now w =
    (Caught (ApiError 404 message),
     mkWorld (snd (check apiLimiter_options now 20 ("user:" +:+ u) (w_cache w)))
             (w_queries w ++ [FindFirst id u])).
Proof.
  intros Hu Hct Hok Hcall Hnone. pose proof (signed_in_eqb u Hu) as Hu'.
  destruct call as [|json|i|i [|body]|i]; try contradiction;
    (lazymatch type of Hcall with
     | _ /\ _ => destruct Hcall as [-> Hbody]
     | _ => subst i
     end);
    handler_unfold; hsimpl; rewrite Hu'; try rewrite Hct; hsimpl;
    rewrite (identifier_of_user req u Hu);
    destruct (check apiLimiter_options now 20 ("user:" +:+ u) (w_cache w)) as [r c];
    hsimpl; rewrite Hok; hsimpl; try (destruct body; try contradiction; hsimpl);
    rewrite Hnone; eexists; reflexivity.
Qed.

Lemma rate_limited_iff (result : @HandlerResult RecordTest) :
  rate_limited result = false <->
  forall message, result <> Caught (ApiError 429 message).
Proof.
  destruct result as [[status m| | | |]|]; simpl; try (split; [discriminate | auto]).
  destruct (Z.eqb_spec status 429) as [->|Hne]; split; try discriminate; auto.
  - intros H. now specialize (H m).
  - intros _ message. congruence.
Qed.

(** Served in a row, the requests of one caller charge the limiter like
    a burst of [check(20, "user:" + userId)] calls. *)
Lemma serve_all_as_burst u requests : forall w,
  u <> "" ->
  Forall (fun x => content_type_ok toLowerCase (fst (fst x)) (snd (fst x)) = true)
         requests ->
  map rate_limited
      (fst (serve_all number_truthy toLowerCase db (Resolved (Some u)) requests w)) =
  map (fun r => negb (success r))
      (fst (run apiLimiter_options (burst 20 ("user:" +:+ u) (map snd requests))
              (w_cache w))) /\
  w_cache (snd (serve_all number_truthy toLowerCase db (Resolved (Some u)) requests w)) =
  snd (run apiLimiter_options (burst 20 ("user:" +:+ u) (map snd requests)) (w_cache w)).
Proof.
  induction requests as [|[[req call] now] requests IH]; intros w Hu Hok.
  - split; reflexivity.
  - apply Forall_cons in Hok as [Hok Hoks]. simpl in Hok.
    destruct (serve_charged u req call now w Hu Hok) as (Hcache & Hdenied & Hallowed).
    cbn [serve_all map burst run c_time c_limit c_token snd].
    fold (burst 20 ("user:" +:+ u) (map snd requests)).
    destruct (serve number_truthy toLowerCase db (Resolved (Some u)) req call now w) as [result w1] eqn:Hs.
    simpl in Hcache, Hallowed.
    destruct (check apiLimiter_options now 20 ("user:" +:+ u) (w_cache w)) as [r c] eqn:Hc.
    simpl in Hcache, Hdenied, Hallowed. subst c.
    specialize (IH w1 Hu Hoks).
    destruct (serve_all number_truthy toLowerCase db (Resolved (Some u)) requests w1)
      as [results w2].
    destruct (run apiLimiter_options (burst 20 ("user:" +:+ u) (map snd requests))
                (w_cache w1)) as [rs c2].
    simpl in *. destruct IH as [IH1 IH2]. split; [|exact IH2].
    f_equal; [|exact IH1].
    destruct (success r).
    + apply rate_limited_iff. now apply Hallowed.
    + specialize (Hdenied eq_refl). injection Hdenied as -> _. reflexivity.
Qed.

(** X13: a signed-in caller new to the limiter gets twenty requests a
    minute over all five routes together.  On a clock past the first
    minute after the epoch, of twenty-one requests within one minute
    (each with an accepted content type where a body is read) none of the
    first twenty is answered with the error 429, and the twenty-first
    is. *)
Theorem twenty_requests_a_minute u first rest w :
  u <> "" ->
  find_slot ("user:" +:+ u) (w_cache w) = None ->
  60000 <= snd first ->
  length rest = 20%nat ->
  Forall (fun x => content_type_ok toLowerCase (fst (fst x)) (snd (fst x)) = true)
         (first :: rest) ->
  Forall (fun x => snd first <= snd x < snd first + 60000) rest ->
  map rate_limited
      (fst (serve_all number_truthy toLowerCase db (Resolved (Some u)) (first :: rest) w)) =
  replicate 20 false ++ [true].
Proof.
  intros Hu Hnew Hclock Hlen Hok Hspan.
  destruct (serve_all_as_burst u (first :: rest) w Hu Hok) as [-> _].
  cbn [map].
  rewrite (unseen_burst_past_first_window apiLimiter_options 20 ("user:" +:+ u)
             (snd first) (map snd rest) (w_cache w)).
  - reflexivity.
  - lia.
  - exact Hnew.
  - exact Hclock.
  - rewrite length_map. exact Hlen.
  - apply Forall_map. eapply Forall_impl; [exact Hspan|]. simpl. intros x Hx. exact Hx.
Qed.

End HandlerFacts.

Lemma unauthenticated_is_turned_away_witness :
  serve demo_number_truthy toLowerCase_ascii demo_db (Resolved (Some ""))
    demo_json_request (DeleteRecord "r1") 1700000000000 (mkWorld [] []) =
  (Caught (ApiError 401 "Unauthorized"), mkWorld [] []).
Proof.
  apply (unauthenticated_is_turned_away demo_number_truthy toLowerCase_ascii demo_db
           (Some "") demo_json_request (DeleteRecord "r1") 1700000000000 (mkWorld [] [])).
  reflexivity.
Defined.

Lemma wrong_content_type_costs_nothing_witness :
  serve demo_number_truthy toLowerCase_ascii demo_db (Resolved (Some "u1"))
    (mkRequest {[ "content-type" := "text/plain" ]})
    (CreateRecord (Resolved (JObject [("title", JString "t")])))
    1700000000000 (mkWorld [] []) =
  (Caught (ApiError 415 "Content-Type must be application/json"), mkWorld [] []).
Proof.
  apply (wrong_content_type_costs_nothing demo_number_truthy toLowerCase_ascii demo_db
           "u1" (mkRequest {[ "content-type" := "text/plain" ]})
           (CreateRecord (Resolved (JObject [("title", JString "t")])))
           1700000000000 (mkWorld [] [])).
  - discriminate.
  - reflexivity.
Defined.

Lemma limiter_charged_once_per_request_witness :
  w_cache (snd (serve demo_number_truthy toLowerCase_ascii demo_db
                  (Resolved (Some "u1"))
                  (mkRequest {[ "x-forwarded-for" := "203.0.113.7" ]})
                  (ShowRecord "r1") 1700000000000 (mkWorld [] []))) =
  snd (check apiLimiter_options 1700000000000 20 "user:u1" []).
Proof.
  apply (proj1 (limiter_charged_once_per_request demo_number_truthy toLowerCase_ascii
                  demo_db "u1" (mkRequest {[ "x-forwarded-for" := "203.0.113.7" ]})
                  (ShowRecord "r1") 1700000000000 (mkWorld [] [])
                  ltac:(discriminate) ltac:(reflexivity))).
Defined.

Lemma response_reports_remaining_witness :
  exists u,
    Resolved (Some "u1") = Resolved (Some u) /\ u <> "" /\
    content_type_ok (number := Z) toLowerCase_ascii demo_json_request
      (CreateRecord (Resolved (JObject [("title", JString "t")]))) = true /\
    success (fst (check apiLimiter_options 1700000000000 20 ("user:" +:+ u) [])) = true /\
    "19" = pretty (remaining (fst (check apiLimiter_options 1700000000000 20
                                     ("user:" +:+ u) []))) /\
    0 <= remaining (fst (check apiLimiter_options 1700000000000 20 ("user:" +:+ u) [])) <= 19 /\
    201 = 201.
Proof.
  apply (response_reports_remaining demo_number_truthy toLowerCase_ascii demo_db
           (Resolved (Some "u1")) demo_json_request
           (CreateRecord (Resolved (JObject [("title", JString "t")])))
           1700000000000 (mkWorld [] [])
           (mkResponse 201 (BodyRecord "t") "19")).
  reflexivity.
Defined.

Lemma created_record_is_well_formed_witness :
  exists body : @JsonValue Z,
    Resolved (JObject [("title", JString "t"); ("status", JString "");
                       ("description", JString "d")]) = Resolved body /\
    property "title" body = Some (JString "t") /\
    "t" <> "" /\
    "u1" = "u1" /\
    json_truthy demo_number_truthy (Some (JString "active")) = true /\
    (json_truthy demo_number_truthy (property "status" body) = false ->
     @JString Z "active" = JString "active") /\
    (@JString Z "d" = JNull \/
     json_truthy demo_number_truthy (Some (JString "d")) = true) /\
    (json_truthy demo_number_truthy (property "status" body) = true ->
     property "status" body = Some (JString "active")) /\
    (json_truthy demo_number_truthy (property "description" body) = true ->
     property "description" body = Some (JString "d")) /\
    (json_truthy demo_number_truthy (property "description" body) = false ->
     @JString Z "d" = JNull).
Proof.
  apply (created_record_is_well_formed demo_number_truthy toLowerCase_ascii demo_db
           "u1" demo_json_request
           (Resolved (JObject [("title", JString "t"); ("status", JString "");
                               ("description", JString "d")]))
           1700000000000 (mkWorld [] [])
           (mkCreateData "t" (JString "d") (JString "active") "u1")).
  reflexivity.
Defined.

Lemma foreign_record_is_not_touched_witness :
  let db := mkPrisma (fun _ => Resolved []) (fun data => Resolved (cd_title data))
              (fun _ _ => Resolved None) (fun id _ => Resolved id)
              (fun id => Resolved id) : @Prisma Z string in
  exists message,
    serve demo_number_truthy toLowerCase_ascii db (Resolved (Some "u1"))
      demo_json_request (DeleteRecord "r9") 1700000000000 (mkWorld [] []) =
    (Caught (ApiError 404 message),
     mkWorld (snd (check apiLimiter_options 1700000000000 20 ("user:" +:+ "u1") []))
             ([] ++ [FindFirst "r9" "u1"])).
Proof.
  cbv zeta.
  apply (foreign_record_is_not_touched demo_number_truthy toLowerCase_ascii
           (mkPrisma (fun _ => Resolved []) (fun data => Resolved (cd_title data))
              (fun _ _ => Resolved None) (fun id _ => Resolved id)
              (fun id => Resolved id))
           "u1" demo_json_request (DeleteRecord "r9") "r9" 1700000000000
           (mkWorld [] [])).
  - discriminate.
  - reflexivity.
  - reflexivity.
  - reflexivity.
  - reflexivity.
Defined.

Lemma twenty_requests_a_minute_witness :
  let later := map (fun n => (demo_json_request,
                              (if Nat.even n then ListRecords
                               else UpdateRecord "r1" (Resolved (JObject []))),
                              1700000000000 + Z.of_nat n)) (seq 1 20) in
  map rate_limited
      (fst (serve_all demo_number_truthy toLowerCase_ascii demo_db
              (Resolved (Some "u1"))
              ((demo_json_request, ListRecords, 1700000000000) :: later)
              (mkWorld [] []))) =
  replicate 20 false ++ [true].
Proof.
  cbv zeta.
  apply (twenty_requests_a_minute demo_number_truthy toLowerCase_ascii demo_db "u1"
           (demo_json_request, ListRecords, 1700000000000)).
  - discriminate.
  - reflexivity.
  - simpl. lia.
  - reflexivity.
  - repeat constructor.
  - repeat constructor; simpl; lia.
Defined.

(** ** More on the first call and on content types *)

(** X14: the first call of a caller the cache does not know, with a
    positive limit.  On a clock of at least [interval] it is admitted
    with [remaining = limit - 1] and the window [[now]] is stored; on a
    clock below [interval] the placeholder [0] stays in the window, so
    the call is refused when [limit] is 1 and otherwise admitted with
    [remaining = limit - 2] and the window [[0; now]]. *)
Theorem first_call_of_new_caller options now limit token s :
  find_slot token s = None ->
  0 < limit ->
  (interval options <= now ->
   check options now limit token s =
   (mkCheckResult true (limit - 1),
    LRUCache.set (tokenCache_options options) now token [now] s)) /\
  (now < interval options ->
   check options now limit token s =
   if limit <=? 1 then (mkCheckResult false 0, s)
   else (mkCheckResult true (limit - 2),
         LRUCache.set (tokenCache_options options) now token [0; now] s)).
Proof.
  intros Hf Hlim. split; intros Hnow.
  - now apply check_unseen_past_first_window.
  - now apply check_unseen_on_early_clock.
Qed.

Lemma first_call_of_new_caller_witness :
  check apiLimiter_options 1700000000000 20 "user:u1" [] =
  (mkCheckResult true 19,
   LRUCache.set (tokenCache_options apiLimiter_options) 1700000000000 "user:u1"
     [1700000000000] []).
Proof.
  apply (proj1 (first_call_of_new_caller apiLimiter_options 1700000000000 20
                  "user:u1" [] eq_refl ltac:(lia))).
  simpl. lia.
Defined.

(** X15: on a clock of at least [interval], a caller the cache does not
    know gets exactly [limit] calls inside one window: calls at times in
    [[t1, t1 + interval)] are admitted with [remaining] counting down
    from [limit - 1] to [0], and the next one in that span is refused. *)
Theorem new_caller_gets_limit_calls options limit token t1 rest s :
  0 < limit ->
  find_slot token s = None ->
  interval options <= t1 ->
  length rest = Z.to_nat limit ->
  Forall (fun t => t1 <= t < t1 + interval options) rest ->
  fst (run options (burst limit token (t1 :: rest)) s) =
  countdown limit (Z.to_nat limit) ++ [mkCheckResult false 0].
Proof. apply unseen_burst_past_first_window. Qed.

Lemma new_caller_gets_limit_calls_witness :
  fst (run {| interval := 1000; uniqueTokenPerInterval := 500 |}
         (burst 3 "user:u1" [10000; 10100; 10200; 10300]) []) =
  [mkCheckResult true 2; mkCheckResult true 1; mkCheckResult true 0;
   mkCheckResult false 0].
Proof.
  apply (new_caller_gets_limit_calls {| interval := 1000; uniqueTokenPerInterval := 500 |}
           3 "user:u1" 10000 [10100; 10200; 10300] []).
  - lia.
  - reflexivity.
  - simpl. lia.
  - reflexivity.
  - repeat constructor; simpl; lia.
Defined.

Lemma string_app_assoc (a b c : string) : (a +:+ b) +:+ c = a +:+ (b +:+ c).
Proof.
  induction a as [|x a IH]; [reflexivity|].
  change (String x ((a +:+ b) +:+ c) = String x (a +:+ (b +:+ c))). now rewrite IH.
Qed.

Lemma toLowerCase_ascii_app a b :
  toLowerCase_ascii (a +:+ b) = toLowerCase_ascii a +:+ toLowerCase_ascii b.
Proof.
  induction a as [|x a IH]; [reflexivity|].
  change (String (ascii_toLowerCase x) (toLowerCase_ascii (a +:+ b)) =
          String (ascii_toLowerCase x) (toLowerCase_ascii a +:+ toLowerCase_ascii b)).
  now rewrite IH.
Qed.

(** X16: the content-type test only looks at how the header begins.  For
    a case mapping that maps a concatenation to the concatenation of the
    images (as on ASCII text), a header that is accepted stays accepted
    whatever is appended to it. *)
Theorem accepted_content_type_extends toLowerCase req req' contentType rest expectedType :
  (forall a b, toLowerCase (a +:+ b) = toLowerCase a +:+ toLowerCase b) ->
  headers_get req "content-type" = Some contentType ->
  headers_get req' "content-type" = Some (contentType +:+ rest) ->
  validateContentType toLowerCase req expectedType = true ->
  validateContentType toLowerCase req' expectedType = true.
Proof.
  intros Happ Hh Hh'. unfold validateContentType, startsWith, truthy.
  rewrite Hh, Hh'. destruct (String.eqb_spec contentType "") as [->|Hne];
    [discriminate|].
  destruct (String.eqb_spec (contentType +:+ rest) "") as [He|_].
  { destruct contentType; [congruence | discriminate He]. }
  simpl. rewrite !prefix_iff. intros [tail Ht].
  exists (tail +:+ toLowerCase rest). now rewrite Happ, Ht, string_app_assoc.
Qed.

Lemma accepted_content_type_extends_witness :
  validateContentType toLowerCase_ascii
    (mkRequest {[ "content-type" := "application/json" +:+ "-seq; charset=utf-8" ]})
    "application/json" = true.
Proof.
  apply (accepted_content_type_extends toLowerCase_ascii
           (mkRequest {[ "content-type" := "application/json" ]})
           (mkRequest {[ "content-type" := "application/json" +:+ "-seq; charset=utf-8" ]})
           "application/json" "-seq; charset=utf-8" "application/json").
  - apply toLowerCase_ascii_app.
  - reflexivity.
  - reflexivity.
  - reflexivity.
Defined.
